(** * The AIP policy engine (proxy/pkg/policy/engine.go)

    A shallow embedding of the policy engine of the Agent Identity Protocol
    proxy: the policy document types, [Engine.Load] and [Engine.IsAllowed],
    followed by the properties of the loader and of the decision function.

    The Go packages the engine calls into ([strings], [regexp],
    [gopkg.in/yaml.v3], [fmt] on values of arbitrary dynamic type) are
    interfaces here; the engine is defined and verified over any
    implementation of them.  Small reference implementations are given at the
    end of the definitions so that the engine can be run on the scenarios of
    engine_test.go. *)

From stdpp Require Import gmap strings list fin_maps pretty.
From Stdlib Require Import Floats Ascii.

(* [set_solver] clears hypotheses that are section variables here. *)
#[local] Set Warnings "-clear-no-such-hyp".


(** ** Interfaces of the packages used by the engine *)

(** Package [strings]: the two functions the engine normalizes tool names
    with. *)
Class GoStrings := {
  ToLower : string → string;
  TrimSpace : string → string;
}.

(** Package [regexp]: [Compile] returns a compiled expression or an error,
    [MatchString] reports whether the text contains a match.  [Regexp] is
    the type of compiled expressions.  An error of a package is represented
    by its message, which is all the engine uses of it. *)
Class GoRegexp (Regexp : Type) := {
  Compile : string → string + Regexp;
  MatchString : Regexp → string → bool;
}.

(** Package [fmt], where the engine uses it on text and on values of
    arbitrary type: [%q] quotes a string, [%v] prints a value of a dynamic
    type that is none of the scalar types; [Other] stands for these types. *)
Class GoFmt (Other : Type) := {
  Sprintf_q : string → string;
  Sprintf_v : Other → string;
}.

(** Go's [range] over a map visits every entry once, in an order the language
    leaves unspecified.  A [RangeOrder] is one such choice of order. *)
Record RangeOrder := {
  range : ∀ {A : Type}, gmap string A → list (string * A);
  range_perm : ∀ (A : Type) (m : gmap string A), range m ≡ₚ map_to_list m;
}.

(** ** Package [fmt] on the scalar types of [argToString]

    [argToString] formats an [int] with [%d], a [bool] with [%t] and a
    [float64] with [%v].  For a [float64], [%v] is [%g] with the smallest
    number of digits that identifies the value:
    [strconv.FormatFloat(val, 'g', -1, 64)]. *)

Definition Sprintf_d (val : Z) : string := pretty val.

Definition Sprintf_t (val : bool) : string := if val then "true" else "false".

(** [strconv]'s [decimalSlice]: the digits [d] (their number is [nd]) and
    the position [dp] of the decimal point; the value is
    [0.d1d2...  * 10^dp]. *)
Record decimalSlice := {
  d : list ascii;
  dp : Z;
}.

Definition nd (digs : decimalSlice) : Z := Z.of_nat (length (d digs)).

Local Open Scope Z_scope.

(** Digit generation compares a binary number [X * 2^E] with a decimal
    number [c * 10^t].  Both are brought to a common integer scale. *)
Definition scaleBin (X E t : Z) : Z := X * 2 ^ Z.max E 0 * 10 ^ Z.max (- t) 0.

Definition scaleDec (c E t : Z) : Z := c * 10 ^ Z.max t 0 * 2 ^ Z.max (- E) 0.

(** The integer [p] with [10^p <= X * 2^E < 10^(p+1)], from an estimate that
    is off by at most one. *)
Definition floorLog10 (X E : Z) : Z :=
  let est := (Z.log2 X + E) * 30103 / 100000 in
  if scaleDec 1 E (est + 1) <=? scaleBin X E (est + 1) then est + 1
  else if scaleDec 1 E est <=? scaleBin X E est then est
  else est - 1.

(** Is [c * 10^t] between [L * 2^E] and [U * 2^E]?  The bounds belong to the
    interval when [incl] is set. *)
Definition inInterval (incl : bool) (L U E c t : Z) : bool :=
  if incl then
    (scaleBin L E t <=? scaleDec c E t) && (scaleDec c E t <=? scaleBin U E t)
  else
    (scaleBin L E t <? scaleDec c E t) && (scaleDec c E t <? scaleBin U E t).

(** [V * 2^E / 10^t] rounded to the nearest integer, halves to even. *)
Definition roundNearest (V E t : Z) : Z :=
  let down := scaleBin V E t / scaleDec 1 E t in
  match 2 * (scaleBin V E t - scaleDec down E t) ?= scaleDec 1 E t with
  | Lt => down
  | Gt => down + 1
  | Eq => if Z.even down then down else down + 1
  end.

(** Try [n], [n+1], ... digits until a decimal with that many digits lies in
    the interval of the numbers that round to the float.  Seventeen digits
    always do; the case without fuel is there to make the function total and
    is not reached from [shortestDigits]. *)
Fixpoint shortestFrom (fuel : nat) (incl : bool) (L V U E p n : Z) : Z * Z :=
  let t := p - n + 1 in
  let down := scaleBin V E t / scaleDec 1 E t in
  match fuel with
  | O => (down + 1, t)
  | S fuel =>
      match inInterval incl L U E down t, inInterval incl L U E (down + 1) t with
      | true, true => (roundNearest V E t, t)
      | true, false => (down, t)
      | false, true => (down + 1, t)
      | false, false => shortestFrom fuel incl L V U E p (n + 1)
      end
  end.

(** Drops the zeros at the head of a list of digits. *)
Fixpoint trimZeros (digits : list ascii) : list ascii :=
  match digits with
  | "0"%char :: rest => trimZeros rest
  | _ => digits
  end.

(** The digits [strconv] produces for precision [-1] on the positive float
    [m * 2^e]: the shortest decimal that reads back as the same [float64],
    the nearest to it if there are several, without trailing zeros.  The
    numbers that round to the float lie between the midpoints to its two
    neighbours; the midpoints themselves do when [m] is even.  (Go computes
    the same digits with the Ryu algorithm; they are specified here, not
    transcribed.) *)
Definition shortestDigits (m : positive) (e : Z) : decimalSlice :=
  let E := e - 2 in
  let V := 4 * Z.pos m in
  let L :=
    if bool_decide (Z.pos m = 2 ^ 52) && bool_decide (-1074 < e)
    then V - 1 else V - 2 in
  let U := V + 2 in
  let '(c, t) := shortestFrom 17 (Z.even (Z.pos m)) L V U E (floorLog10 V E) 1 in
  let digits := String.list_ascii_of_string (pretty c) in
  {| d := reverse (trimZeros (reverse digits));
     dp := Z.of_nat (length digits) + t |}.

Definition digitChar (n : Z) : ascii := ascii_of_nat (48 + Z.to_nat n).

Definition zeros (n : Z) : list ascii := replicate (Z.to_nat n) "0"%char.

Definition digitAt (digs : decimalSlice) (j : Z) : ascii :=
  if (0 <=? j) && (j <? nd digs)
  then default "0"%char (d digs !! Z.to_nat j)
  else "0"%char.

(** [%e]: [-d.ddddde±dd] *)
Definition fmtE (neg : bool) (digs : decimalSlice) (prec : Z) : list ascii :=
  let sign := if neg then ["-"%char] else [] in
  let first := if nd digs =? 0 then "0"%char else digitAt digs 0 in
  let more :=
    if 0 <? prec then
      let m := Z.min (nd digs) (prec + 1) in
      let i := Z.max 1 m in
      "."%char :: drop 1 (take (Z.to_nat m) (d digs)) ++ zeros (prec - i + 1)
    else [] in
  let exp := if nd digs =? 0 then 0 else dp digs - 1 in
  let esign := if exp <? 0 then "-"%char else "+"%char in
  let exp := Z.abs exp in
  let edigits :=
    if exp <? 10 then ["0"%char; digitChar exp]
    else if exp <? 100 then [digitChar (exp / 10); digitChar (exp mod 10)]
    else [digitChar (exp / 100); digitChar ((exp / 10) mod 10);
          digitChar (exp mod 10)] in
  sign ++ first :: more ++ "e"%char :: esign :: edigits.

(** [%f]: [-ddddddd.ddddd] *)
Definition fmtF (neg : bool) (digs : decimalSlice) (prec : Z) : list ascii :=
  let sign := if neg then ["-"%char] else [] in
  let integer :=
    if 0 <? dp digs then
      let m := Z.min (nd digs) (dp digs) in
      take (Z.to_nat m) (d digs) ++ zeros (dp digs - m)
    else ["0"%char] in
  let fraction :=
    if 0 <? prec then
      "."%char :: map (λ i, digitAt digs (dp digs + Z.of_nat i)) (seq 0 (Z.to_nat prec))
    else [] in
  sign ++ integer ++ fraction.

(** [formatDigits] for the format ['g'] with the shortest digits, where
    [prec] is [nd]: [%e] is used if the exponent is less than [-4] or at
    least [eprec], which is 6 for the shortest digits. *)
Definition formatDigits (neg : bool) (digs : decimalSlice) : list ascii :=
  let prec := nd digs in
  let eprec := 6 in
  let exp := dp digs - 1 in
  if (exp <? -4) || (eprec <=? exp) then fmtE neg digs (prec - 1)
  else fmtF neg digs (Z.max (prec - dp digs) 0).

Definition FormatFloat (val : float) : string :=
  match Prim2SF val with
  | S754_nan => "NaN"
  | S754_infinity neg => if neg then "-Inf" else "+Inf"
  | S754_zero neg =>
      String.string_of_list_ascii (formatDigits neg {| d := []; dp := 0 |})
  | S754_finite neg m e =>
      String.string_of_list_ascii (formatDigits neg (shortestDigits m e))
  end.

Definition Sprintf_v_float64 (val : float) : string := FormatFloat val.

(** *** Plain decimal form

    A text is in plain decimal form when it is an optional minus sign, one or
    more digits and, optionally, a point followed by one or more digits the
    last of which is not a zero. *)

Definition isDigit (c : ascii) : bool :=
  (48 <=? Z.of_nat (nat_of_ascii c)) && (Z.of_nat (nat_of_ascii c) <=? 57).

Fixpoint fractionOK (s : list ascii) : bool :=
  match s with
  | [] => false
  | c :: rest =>
      isDigit c &&
      match rest with
      | [] => negb (bool_decide (c = "0"%char))
      | _ => fractionOK rest
      end
  end.

Fixpoint digitsThenFraction (s : list ascii) : bool :=
  match s with
  | [] => true
  | c :: rest =>
      if isDigit c then digitsThenFraction rest
      else bool_decide (c = "."%char) && fractionOK rest
  end.

Definition unsignedDecimal (s : list ascii) : bool :=
  match s with
  | [] => false
  | c :: rest => isDigit c && digitsThenFraction rest
  end.

Definition plainDecimal (s : string) : bool :=
  match String.list_ascii_of_string s with
  | [] => false
  | c :: rest =>
      if bool_decide (c = "-"%char) then unsignedDecimal rest
      else unsignedDecimal (c :: rest)
  end.

(** The values that [%v] prints in plain decimal form: the zeros, and the
    finite values whose shortest digits [d.ddd] come with a power of ten
    [X] with [-4 <= X < 6]. *)
Definition plainRange (val : float) : Prop :=
  match Prim2SF val with
  | S754_zero _ => True
  | S754_finite _ m e => -4 ≤ dp (shortestDigits m e) - 1 < 6
  | _ => False
  end.

Local Close Scope Z_scope.

(** ** Policy configuration types *)

Section policy.
Context {Regexp Other : Type} `{GoStrings} `{GoRegexp Regexp}.

(** A map that is [nil] in Go reads like the empty map; [AllowArgs] and
    [compiledArgs] are only read, or replaced by a fresh map before
    they are written. *)
Record ToolRule := {
  Tool : string;
  AllowArgs : gmap string string;
  compiledArgs : gmap string Regexp;
}.

Record PolicyMetadata := {
  Name : string;
  Version : string;
  Owner : string;
}.

Record PolicySpec := {
  AllowedTools : list string;
  ToolRules : list ToolRule;
  DeniedTools : list string;
}.

Record AgentPolicy := {
  APIVersion : string;
  Kind : string;
  Metadata : PolicyMetadata;
  Spec : PolicySpec;
}.

(** Package [yaml]: [Unmarshal] decodes a document into a fresh
    [AgentPolicy], or fails. *)
Class GoYaml := {
  Unmarshal : list Byte.byte → string + AgentPolicy;
}.

Context `{GoYaml} `{GoFmt Other}.

(** Argument values have dynamic type [any].  The cases are the ones
    [argToString] switches on. *)
Inductive any :=
  | AString (val : string)
  | AFloat64 (val : float)
  | AInt (val : Z)
  | ABool (val : bool)
  | AOther (val : Other).

(** ** Policy engine *)

(** [allowedSet] is [None] when the Go map is [nil], which [IsAllowed]
    tests for.  [toolRules] is only read through lookups, where a [nil] map
    and an empty one behave alike. *)
Record Engine := {
  policy : option AgentPolicy;
  allowedSet : option (gset string);
  toolRules : gmap string ToolRule;
}.

Definition NewEngine : Engine :=
  {| policy := None; allowedSet := Some ∅; toolRules := ∅ |}.

(** The errors [Load] builds with [fmt.Errorf], and the message of each. *)
Inductive LoadError :=
  | ErrParseYAML (err : string)
  | ErrMissingField (field : string)
  | ErrUnexpectedKind (kind : string)
  | ErrInvalidRegex (tool argName : string) (err : string).

Definition errorText (err : LoadError) : string :=
  match err with
  | ErrParseYAML err => "failed to parse policy YAML: " +:+ err
  | ErrMissingField field => "policy missing required field: " +:+ field
  | ErrUnexpectedKind kind =>
      "unexpected kind " +:+ Sprintf_q kind +:+ ", expected AgentPolicy"
  | ErrInvalidRegex tool argName err =>
      "invalid regex for tool " +:+ Sprintf_q tool +:+ " arg " +:+
      Sprintf_q argName +:+ ": " +:+ err
  end.

Definition normalize (tool : string) : string := ToLower (TrimSpace tool).

(** The loop over [policy.Spec.AllowedTools], started on an empty set. *)
Definition addAllowedTools (tools : list string) (set : gset string) : gset string :=
  foldl (λ set tool, {[normalize tool]} ∪ set) set tools.

(** The loop over [rule.AllowArgs]: compiling stops at the first pattern that
    does not compile. *)
Fixpoint compileArgs (tool : string) (entries : list (string * string))
    (compiled : gmap string Regexp) : LoadError + gmap string Regexp :=
  match entries with
  | [] => inr compiled
  | (argName, pattern) :: entries =>
      match Compile pattern with
      | inl err => inl (ErrInvalidRegex tool argName err)
      | inr re => compileArgs tool entries (<[argName := re]> compiled)
      end
  end.

(** The state of the loop over [policy.Spec.ToolRules]: the two maps of the
    engine, which the loop writes as it goes, and the rules compiled so
    far. *)
Record RuleLoop := {
  loopAllowed : gset string;
  loopRules : gmap string ToolRule;
  loopResult : LoadError + list ToolRule;
}.

Fixpoint compileToolRules (o : RangeOrder) (rules finished : list ToolRule)
    (allowed : gset string) (byName : gmap string ToolRule) : RuleLoop :=
  match rules with
  | [] => {| loopAllowed := allowed; loopRules := byName; loopResult := inr finished |}
  | rule :: rules =>
      let normalized := normalize (Tool rule) in
      match compileArgs (Tool rule) (range o (AllowArgs rule)) ∅ with
      | inl err =>
          {| loopAllowed := allowed; loopRules := byName; loopResult := inl err |}
      | inr compiled =>
          let rule :=
            {| Tool := Tool rule; AllowArgs := AllowArgs rule;
               compiledArgs := compiled |} in
          compileToolRules o rules (finished ++ [rule])
            ({[normalized]} ∪ allowed) (<[normalized := rule]> byName)
      end
  end.

(** [Load] returns the engine as the call leaves it, and the error ([None]
    for [nil]). *)
Definition Load (o : RangeOrder) (e : Engine) (data : list Byte.byte)
    : Engine * option LoadError :=
  match Unmarshal data with
  | inl err => (e, Some (ErrParseYAML err))
  | inr doc =>
      if bool_decide (APIVersion doc = "") then
        (e, Some (ErrMissingField "apiVersion"))
      else if bool_decide (Kind doc ≠ "AgentPolicy") then
        (e, Some (ErrUnexpectedKind (Kind doc)))
      else
        let allowed := addAllowedTools (AllowedTools (Spec doc)) ∅ in
        let loop := compileToolRules o (ToolRules (Spec doc)) [] allowed ∅ in
        match loopResult loop with
        | inl err =>
            ({| policy := policy e;
                allowedSet := Some (loopAllowed loop);
                toolRules := loopRules loop |}, Some err)
        | inr rules =>
            let doc :=
              {| APIVersion := APIVersion doc; Kind := Kind doc;
                 Metadata := Metadata doc;
                 Spec := {| AllowedTools := AllowedTools (Spec doc);
                            ToolRules := rules;
                            DeniedTools := DeniedTools (Spec doc) |} |} in
            ({| policy := Some doc;
                allowedSet := Some (loopAllowed loop);
                toolRules := loopRules loop |}, None)
        end
  end.

Record ValidationResult := {
  Allowed : bool;
  FailedArg : string;
  FailedRule : string;
}.

(** Converts an argument value to the text the pattern is matched on. *)
Definition argToString (v : any) : string :=
  match v with
  | AString val => val
  | AFloat64 val => Sprintf_v_float64 val
  | AInt val => Sprintf_d val
  | ABool val => Sprintf_t val
  | AOther val => Sprintf_v val
  end.

Definition allow : ValidationResult :=
  {| Allowed := true; FailedArg := ""; FailedRule := "" |}.

Definition deny (failedArg failedRule : string) : ValidationResult :=
  {| Allowed := false; FailedArg := failedArg; FailedRule := failedRule |}.

(** Step 3 of [IsAllowed]: the loop over [rule.compiledArgs], in the order
    [entries]; it returns at the first argument that is missing or does not
    match.  [rule.AllowArgs[argName]] is the empty string when the map has
    no such key. *)
Fixpoint validateArgs (rule : ToolRule) (args : gmap string any)
    (entries : list (string * Regexp)) : ValidationResult :=
  match entries with
  | [] => allow
  | (argName, compiledRegex) :: entries =>
      match args !! argName with
      | None => deny argName (default "" (AllowArgs rule !! argName))
      | Some argValue =>
          let strValue := argToString argValue in
          if negb (MatchString compiledRegex strValue) then
            deny argName (default "" (AllowArgs rule !! argName))
          else validateArgs rule args entries
      end
  end.

(** A [nil] argument map reads like the empty one. *)
Definition IsAllowed (o : RangeOrder) (e : Engine) (toolName : string)
    (args : gmap string any) : ValidationResult :=
  match allowedSet e with
  | None => deny "" ""
  | Some allowed =>
      let normalized := normalize toolName in
      if bool_decide (normalized ∉ allowed) then deny "" ""
      else
        match toolRules e !! normalized with
        | None => allow
        | Some rule =>
            if bool_decide (size (compiledArgs rule) = 0) then allow
            else validateArgs rule args (range o (compiledArgs rule))
        end
  end.

Definition GetPolicyName (e : Engine) : string :=
  match policy e with
  | None => "<no policy>"
  | Some doc => Name (Metadata doc)
  end.

Definition GetAllowedTools (e : Engine) : option (list string) :=
  match policy e with
  | None => None
  | Some doc => Some (AllowedTools (Spec doc))
  end.

(** ** Notions used in the statements *)

(** The tools on the allow-list, normalized. *)
Definition listedTools (doc : AgentPolicy) : gset string :=
  list_to_set (normalize <$> AllowedTools (Spec doc)).

(** The tools that have a rule, normalized. *)
Definition ruledTools (rules : list ToolRule) : gset string :=
  list_to_set (normalize ∘ Tool <$> rules).

(** A rule is compiled when its matchers are those of its declared
    patterns. *)
Definition compiledFrom (rule : ToolRule) : Prop :=
  ∀ argName,
    match AllowArgs rule !! argName with
    | Some pattern =>
        ∃ re, Compile pattern = inr re ∧ compiledArgs rule !! argName = Some re
    | None => compiledArgs rule !! argName = None
    end.

(** A document passes validation when it has a schema version and the
    expected kind. *)
Definition validDocument (doc : AgentPolicy) : Prop :=
  APIVersion doc ≠ "" ∧ Kind doc = "AgentPolicy".

(** Some declared pattern of the document does not compile. *)
Definition badPattern (doc : AgentPolicy) : Prop :=
  ∃ rule argName pattern msg,
    rule ∈ ToolRules (Spec doc) ∧ AllowArgs rule !! argName = Some pattern ∧
    Compile pattern = inl msg.

(** The engine is the result of a successful [Load]. *)
Definition loadedBy (e : Engine) : Prop :=
  ∃ o e0 data, Load o e0 data = (e, None).

(** The allowed set, empty when the map is [nil]. *)
Definition allowedTools (e : Engine) : gset string := default ∅ (allowedSet e).

(** An argument passes its matcher when it is present and its text
    matches. *)
Definition argOK (args : gmap string any) (argName : string) (re : Regexp) : bool :=
  match args !! argName with
  | None => false
  | Some argValue => MatchString re (argToString argValue)
  end.

(** The text matches the declared pattern. *)
Definition matches (pattern text : string) : bool :=
  match Compile pattern with
  | inr re => MatchString re text
  | inl _ => false
  end.

(** The argument is present and its text form matches the pattern. *)
Definition satisfies (args : gmap string any) (argName pattern : string) : Prop :=
  ∃ argValue,
    args !! argName = Some argValue ∧ matches pattern (argToString argValue) = true.

(** The argument is absent, or present with a text form that does not match
    the pattern. *)
Definition violates (args : gmap string any) (argName pattern : string) : Prop :=
  args !! argName = None ∨
  ∃ argValue,
    args !! argName = Some argValue ∧ matches pattern (argToString argValue) = false.

End policy.

Arguments ToolRule : clear implicits.
Arguments PolicySpec : clear implicits.
Arguments AgentPolicy : clear implicits.
Arguments Engine : clear implicits.
Arguments RuleLoop : clear implicits.
Arguments any : clear implicits.
Arguments GoYaml : clear implicits.

(** ** Reference implementations of the interfaces

    They let the engine run on concrete inputs.  [asciiStrings] agrees with
    Go's [strings] package on ASCII text; [testRegexp] and [testYaml] know
    the patterns and the documents of engine_test.go and of the scenarios
    below, and fail on everything else. *)

(** Two iteration orders: the order of the keys in the [gmap], and the
    opposite one. *)
Program Definition keyOrder : RangeOrder :=
  {| range := λ A m, map_to_list m |}.
Next Obligation. done. Qed.

Program Definition reverseKeyOrder : RangeOrder :=
  {| range := λ A m, reverse (map_to_list m) |}.
Next Obligation. intros A m. by rewrite reverse_Permutation. Qed.

(** [strings.ToLower] and [strings.TrimSpace] on ASCII text.  White space is
    tab, line feed, vertical tab, form feed, carriage return and space. *)
Definition lowerChar (c : ascii) : ascii :=
  let n := nat_of_ascii c in
  if bool_decide (65 ≤ n ≤ 90) then ascii_of_nat (n + 32) else c.

Fixpoint asciiToLower (s : string) : string :=
  match s with
  | EmptyString => EmptyString
  | String c s => String (lowerChar c) (asciiToLower s)
  end.

Fixpoint trimLeft (s : string) : string :=
  match s with
  | EmptyString => EmptyString
  | String c rest => if Ascii.is_space c then trimLeft rest else s
  end.

Fixpoint trimRight (s : string) : string :=
  match s with
  | EmptyString => EmptyString
  | String c rest =>
      match trimRight rest with
      | EmptyString => if Ascii.is_space c then EmptyString else String c EmptyString
      | rest => String c rest
      end
  end.

Definition asciiTrimSpace (s : string) : string := trimRight (trimLeft s).

(** The string does not start with white space. *)
Definition startsClean (s : string) : Prop :=
  match s with
  | EmptyString => True
  | String c _ => Ascii.is_space c = false
  end.

#[export] Instance asciiStrings : GoStrings :=
  {| ToLower := asciiToLower; TrimSpace := asciiTrimSpace |}.

(** The text is ASCII: every byte is below [utf8.RuneSelf], 128. *)
Definition isASCIIChar (c : ascii) : bool :=
  match c with
  | Ascii _ _ _ _ _ _ _ high => negb high
  end.

Fixpoint isASCII (s : string) : bool :=
  match s with
  | EmptyString => true
  | String c s => isASCIIChar c && isASCII s
  end.

(** What package [strings] does on ASCII text: [ToLower] maps the letters
    [A] to [Z] to [a] to [z] and keeps every other byte, and [TrimSpace]
    removes tab, line feed, vertical tab, form feed, carriage return and
    space from both ends.  On other text the two functions go by the
    Unicode tables, of which nothing is said here. *)
Class GoStringsASCII `{GoStrings} : Prop := {
  ToLower_ASCII s : isASCII s = true → ToLower s = asciiToLower s;
  TrimSpace_ASCII s : isASCII s = true → TrimSpace s = asciiTrimSpace s;
}.

(** The patterns of engine_test.go, with what each of them matches. *)
Inductive TestPattern :=
  | GithubURL   (* ^https://github\.com/.* *)
  | HttpsURL    (* ^https://.* *)
  | Database    (* ^(prod|staging)$ *)
  | SelectQuery (* ^SELECT\s+.* *).

Definition testCompile (pattern : string) : string + TestPattern :=
  if bool_decide (pattern = "^https://github\.com/.*") then inr GithubURL
  else if bool_decide (pattern = "^https://.*") then inr HttpsURL
  else if bool_decide (pattern = "^(prod|staging)$") then inr Database
  else if bool_decide (pattern = "^SELECT\s+.*") then inr SelectQuery
  else if bool_decide (pattern = "[invalid(regex") then
    inl "error parsing regexp: missing closing ]: `[invalid(regex`"
  else inl ("unknown pattern: `" +:+ pattern +:+ "`").

(** [\s] is tab, line feed, form feed, carriage return or space. *)
Definition isPerlSpace (c : ascii) : bool :=
  bool_decide (nat_of_ascii c ∈ [9; 10; 12; 13; 32]).

Definition testMatchString (re : TestPattern) (s : string) : bool :=
  match re with
  | GithubURL => String.prefix "https://github.com/" s
  | HttpsURL => String.prefix "https://" s
  | Database => bool_decide (s = "prod") || bool_decide (s = "staging")
  | SelectQuery =>
      String.prefix "SELECT" s &&
      match String.get 6 s with Some c => isPerlSpace c | None => false end
  end.

#[export] Instance testRegexp : GoRegexp TestPattern :=
  {| Compile := testCompile; MatchString := testMatchString |}.

(** The documents of engine_test.go and of the scenarios below, each with the
    [AgentPolicy] it decodes to.  Patterns are written as single-quoted
    scalars. *)
Definition unlines (lines : list string) : string :=
  foldr (λ line text, line +:+ String (ascii_of_nat 10) text) "" lines.

Definition testRule (tool : string) (allowArgs : list (string * string))
    : ToolRule TestPattern :=
  {| Tool := tool; AllowArgs := list_to_map allowArgs; compiledArgs := ∅ |}.

Definition testPolicy (apiVersion kind name : string) (allowedTools : list string)
    (toolRules : list (ToolRule TestPattern)) : AgentPolicy TestPattern :=
  {| APIVersion := apiVersion; Kind := kind;
     Metadata := {| Name := name; Version := ""; Owner := "" |};
     Spec := {| AllowedTools := allowedTools; ToolRules := toolRules;
                DeniedTools := [] |} |}.

Definition geminiJackYAML : string := unlines [
  "apiVersion: aip.io/v1alpha1";
  "kind: AgentPolicy";
  "metadata:";
  "  name: gemini-jack-defense-test";
  "spec:";
  "  tool_rules:";
  "    - tool: fetch_url";
  "      allow_args:";
  "        url: '^https://github\.com/.*'" ].

Definition toolLevelYAML : string := unlines [
  "apiVersion: aip.io/v1alpha1";
  "kind: AgentPolicy";
  "metadata:";
  "  name: tool-level-test";
  "spec:";
  "  allowed_tools:";
  "    - safe_tool" ].

Definition multiArgYAML : string := unlines [
  "apiVersion: aip.io/v1alpha1";
  "kind: AgentPolicy";
  "metadata:";
  "  name: multi-arg-test";
  "spec:";
  "  tool_rules:";
  "    - tool: run_query";
  "      allow_args:";
  "        database: '^(prod|staging)$'";
  "        query: '^SELECT\s+.*'" ].

Definition invalidRegexYAML : string := unlines [
  "apiVersion: aip.io/v1alpha1";
  "kind: AgentPolicy";
  "metadata:";
  "  name: invalid-regex-test";
  "spec:";
  "  tool_rules:";
  "    - tool: bad_tool";
  "      allow_args:";
  "        pattern: '[invalid(regex'" ].

Definition implicitAllowYAML : string := unlines [
  "apiVersion: aip.io/v1alpha1";
  "kind: AgentPolicy";
  "metadata:";
  "  name: implicit-allow-test";
  "spec:";
  "  tool_rules:";
  "    - tool: fetch_url";
  "      allow_args:";
  "        url: '^https://.*'" ].

(** An allow-list and a good rule, followed by a rule whose pattern does not
    compile. *)
Definition brokenReloadYAML : string := unlines [
  "apiVersion: aip.io/v1alpha1";
  "kind: AgentPolicy";
  "metadata:";
  "  name: broken-reload";
  "spec:";
  "  allowed_tools:";
  "    - delete_repo";
  "  tool_rules:";
  "    - tool: fetch_url";
  "      allow_args:";
  "        url: '^https://.*'";
  "    - tool: bad_tool";
  "      allow_args:";
  "        pattern: '[invalid(regex'" ].

Definition wrongKindYAML : string := unlines [
  "apiVersion: aip.io/v1alpha1";
  "kind: AgentManifest";
  "metadata:";
  "  name: wrong-kind" ].

Definition noVersionYAML : string := unlines [
  "kind: AgentPolicy";
  "metadata:";
  "  name: no-version" ].

Definition geminiJackPolicy : AgentPolicy TestPattern :=
  testPolicy "aip.io/v1alpha1" "AgentPolicy" "gemini-jack-defense-test" []
    [testRule "fetch_url" [("url", "^https://github\.com/.*")]].

Definition toolLevelPolicy : AgentPolicy TestPattern :=
  testPolicy "aip.io/v1alpha1" "AgentPolicy" "tool-level-test" ["safe_tool"] [].

Definition multiArgPolicy : AgentPolicy TestPattern :=
  testPolicy "aip.io/v1alpha1" "AgentPolicy" "multi-arg-test" []
    [testRule "run_query"
       [("database", "^(prod|staging)$"); ("query", "^SELECT\s+.*")]].

Definition invalidRegexPolicy : AgentPolicy TestPattern :=
  testPolicy "aip.io/v1alpha1" "AgentPolicy" "invalid-regex-test" []
    [testRule "bad_tool" [("pattern", "[invalid(regex")]].

Definition implicitAllowPolicy : AgentPolicy TestPattern :=
  testPolicy "aip.io/v1alpha1" "AgentPolicy" "implicit-allow-test" []
    [testRule "fetch_url" [("url", "^https://.*")]].

Definition brokenReloadPolicy : AgentPolicy TestPattern :=
  testPolicy "aip.io/v1alpha1" "AgentPolicy" "broken-reload" ["delete_repo"]
    [testRule "fetch_url" [("url", "^https://.*")];
     testRule "bad_tool" [("pattern", "[invalid(regex")]].

Definition wrongKindPolicy : AgentPolicy TestPattern :=
  testPolicy "aip.io/v1alpha1" "AgentManifest" "wrong-kind" [] [].

Definition noVersionPolicy : AgentPolicy TestPattern :=
  testPolicy "" "AgentPolicy" "no-version" [] [].

Definition testDocuments : list (string * AgentPolicy TestPattern) := [
  (geminiJackYAML, geminiJackPolicy);
  (toolLevelYAML, toolLevelPolicy);
  (multiArgYAML, multiArgPolicy);
  (invalidRegexYAML, invalidRegexPolicy);
  (implicitAllowYAML, implicitAllowPolicy);
  (brokenReloadYAML, brokenReloadPolicy);
  (wrongKindYAML, wrongKindPolicy);
  (noVersionYAML, noVersionPolicy) ].

Fixpoint lookupDocument (text : string)
    (docs : list (string * AgentPolicy TestPattern))
    : string + AgentPolicy TestPattern :=
  match docs with
  | [] => inl "yaml: unknown document"
  | (text', doc) :: docs =>
      if bool_decide (text = text') then inr doc else lookupDocument text docs
  end.

#[export] Instance testYaml : GoYaml TestPattern :=
  {| Unmarshal := λ data,
       lookupDocument (String.string_of_list_byte data) testDocuments |}.

(** [%q] on printable ASCII text: the text between double quotes, with a
    backslash before each double quote and backslash.  The one dynamic type
    besides the scalars is that of [nil], which [%v] prints as [<nil>]. *)
Definition doubleQuote : ascii := ascii_of_nat 34.

Fixpoint escape (s : string) : string :=
  match s with
  | EmptyString => EmptyString
  | String c s =>
      if bool_decide (c = doubleQuote ∨ c = "\"%char)
      then String "\"%char (String c (escape s))
      else String c (escape s)
  end.

Definition quote (s : string) : string :=
  String doubleQuote (escape s +:+ String doubleQuote "").

#[export] Instance testFmt : GoFmt unit :=
  {| Sprintf_q := quote; Sprintf_v := λ _, "<nil>" |}.

Definition bytes (text : string) : list Byte.byte := String.list_byte_of_string text.

Definition loaded (yaml : string) : Engine TestPattern :=
  (Load keyOrder NewEngine (bytes yaml)).1.

Definition text (entries : list (string * string)) : gmap string (any unit) :=
  list_to_map (prod_map id AString <$> entries).

(** The rules of two of the documents, as [Load] stores them. *)
Definition multiArgRule : ToolRule TestPattern :=
  {| Tool := "run_query";
     AllowArgs := list_to_map
       [("database", "^(prod|staging)$"); ("query", "^SELECT\s+.*")];
     compiledArgs := list_to_map [("database", Database); ("query", SelectQuery)] |}.

Definition geminiJackRule : ToolRule TestPattern :=
  {| Tool := "fetch_url";
     AllowArgs := list_to_map [("url", "^https://github\.com/.*")];
     compiledArgs := list_to_map [("url", GithubURL)] |}.

(** ** Loading from a file, and sequences of loads *)

Section files.
Context {Regexp Other : Type}.
Context `{GoStrings} `{!GoRegexp Regexp} `{!GoYaml Regexp} `{!GoFmt Other}.

(** Package [os]: [ReadFile] returns the contents of the file or an error. *)
Class GoOs := {
  ReadFile : string → string + list Byte.byte;
}.

Context `{GoOs}.

(** [LoadFromFile] returns the error of [os.ReadFile], wrapped, or else what
    [Load] returns. *)
Inductive FileLoadError :=
  | ErrReadFile (path err : string)
  | ErrLoad (err : LoadError).

Definition fileErrorText (err : FileLoadError) : string :=
  match err with
  | ErrReadFile path err =>
      "failed to read policy file " +:+ Sprintf_q path +:+ ": " +:+ err
  | ErrLoad err => errorText err
  end.

Definition LoadFromFile (o : RangeOrder) (e : Engine Regexp) (path : string)
    : Engine Regexp * option FileLoadError :=
  match ReadFile path with
  | inl err => (e, Some (ErrReadFile path err))
  | inr data =>
      let result := Load o e data in
      (result.1, ErrLoad <$> result.2)
  end.

(** A document that [Load] rejects before it starts to compile: it does not
    parse, or it fails validation. *)
Definition rejectedEarly (data : list Byte.byte) : Prop :=
  match Unmarshal data with
  | inl _ => True
  | inr doc => ¬ validDocument doc
  end.

(** The engine after a sequence of calls of [Load], each with its own order
    of iteration. *)
Definition loadAll (calls : list (RangeOrder * list Byte.byte)) (e : Engine Regexp)
    : Engine Regexp :=
  foldl (λ e call, (Load call.1 e call.2).1) e calls.

(** Two outcomes of [Load] that are both [nil], or the same error, or two
    errors for patterns of one tool. *)
Definition sameFailure (err1 err2 : option LoadError) : Prop :=
  match err1, err2 with
  | None, None => True
  | Some (ErrInvalidRegex tool1 _ _), Some (ErrInvalidRegex tool2 _ _) => tool1 = tool2
  | Some err1, Some err2 => err1 = err2
  | _, _ => False
  end.

End files.

(** *** More documents and a file system to run on *)

(** Two rules for one tool, under two spellings of its name. *)
Definition duplicateRuleYAML : string := unlines [
  "apiVersion: aip.io/v1alpha1";
  "kind: AgentPolicy";
  "metadata:";
  "  name: duplicate-rule";
  "spec:";
  "  tool_rules:";
  "    - tool: FETCH_URL";
  "      allow_args:";
  "        url: '^https://github\.com/.*'";
  "    - tool: ' fetch_url '";
  "      allow_args:";
  "        url: '^https://.*'" ].

Definition duplicateRulePolicy : AgentPolicy TestPattern :=
  testPolicy "aip.io/v1alpha1" "AgentPolicy" "duplicate-rule" []
    [testRule "FETCH_URL" [("url", "^https://github\.com/.*")];
     testRule " fetch_url " [("url", "^https://.*")]].

(** The allow-list of the tool-level test, with the same tool on the
    deny-list. *)
Definition deniedToolYAML : string := unlines [
  "apiVersion: aip.io/v1beta1";
  "kind: AgentPolicy";
  "metadata:";
  "  name: denied-tool";
  "  owner: platform-team";
  "spec:";
  "  allowed_tools:";
  "    - safe_tool";
  "  denied_tools:";
  "    - safe_tool" ].

Definition deniedToolPolicy : AgentPolicy TestPattern :=
  {| APIVersion := "aip.io/v1beta1"; Kind := "AgentPolicy";
     Metadata := {| Name := "denied-tool"; Version := ""; Owner := "platform-team" |};
     Spec := {| AllowedTools := ["safe_tool"]; ToolRules := [];
                DeniedTools := ["safe_tool"] |} |}.

(** A good rule, a rule with a bad pattern, and a rule after it. *)
Definition brokenMiddleYAML : string := unlines [
  "apiVersion: aip.io/v1alpha1";
  "kind: AgentPolicy";
  "metadata:";
  "  name: broken-middle";
  "spec:";
  "  tool_rules:";
  "    - tool: fetch_url";
  "      allow_args:";
  "        url: '^https://.*'";
  "    - tool: bad_tool";
  "      allow_args:";
  "        pattern: '[invalid(regex'";
  "    - tool: run_query";
  "      allow_args:";
  "        database: '^(prod|staging)$'" ].

Definition brokenMiddlePolicy : AgentPolicy TestPattern :=
  testPolicy "aip.io/v1alpha1" "AgentPolicy" "broken-middle" []
    [testRule "fetch_url" [("url", "^https://.*")];
     testRule "bad_tool" [("pattern", "[invalid(regex")];
     testRule "run_query" [("database", "^(prod|staging)$")]].

(** One rule with two patterns that do not compile. *)
Definition twoBadPatternsYAML : string := unlines [
  "apiVersion: aip.io/v1alpha1";
  "kind: AgentPolicy";
  "metadata:";
  "  name: two-bad-patterns";
  "spec:";
  "  allowed_tools:";
  "    - safe_tool";
  "  tool_rules:";
  "    - tool: run_query";
  "      allow_args:";
  "        database: '[invalid(regex'";
  "        query: '[invalid(regex'" ].

Definition twoBadPatternsPolicy : AgentPolicy TestPattern :=
  testPolicy "aip.io/v1alpha1" "AgentPolicy" "two-bad-patterns" ["safe_tool"]
    [testRule "run_query"
       [("database", "[invalid(regex"); ("query", "[invalid(regex")]].

Definition scenarioDocuments : list (string * AgentPolicy TestPattern) :=
  [(twoBadPatternsYAML, twoBadPatternsPolicy);
   (duplicateRuleYAML, duplicateRulePolicy);
   (deniedToolYAML, deniedToolPolicy);
   (brokenMiddleYAML, brokenMiddlePolicy)] ++ testDocuments.

(** A decoder that also knows these documents.  It is not registered as an
    instance; the section of scenarios that needs it declares it locally. *)
Definition scenarioYaml : GoYaml TestPattern :=
  {| Unmarshal := λ data,
       lookupDocument (String.string_of_list_byte data) scenarioDocuments |}.

(** A file system with two policy files. *)
Definition testFiles : list (string * string) :=
  [("/etc/aip/agent.yaml", toolLevelYAML);
   ("/etc/aip/broken.yaml", wrongKindYAML)].

Fixpoint lookupFile (path : string) (files : list (string * string))
    : string + list Byte.byte :=
  match files with
  | [] => inl ("open " +:+ path +:+ ": no such file or directory")
  | (path', text) :: files =>
      if bool_decide (path = path') then inr (String.list_byte_of_string text)
      else lookupFile path files
  end.

#[export] Instance testOs : GoOs :=
  {| ReadFile := λ path, lookupFile path testFiles |}.

(** * Properties *)

Section properties.
Context {Regexp Other : Type}.
Context `{GoStrings} `{!GoRegexp Regexp} `{!GoYaml Regexp} `{!GoFmt Other}.
Implicit Types (o : RangeOrder) (e : Engine Regexp) (rule : ToolRule Regexp).
Implicit Types (doc : AgentPolicy Regexp) (args : gmap string (any Other)).
Implicit Types (allowed : gset string) (byName : gmap string (ToolRule Regexp)).

(** ** Iteration over a map *)

Lemma elem_of_range {A} o (m : gmap string A) k v :
  (k, v) ∈ range o m ↔ m !! k = Some v.
Proof. rewrite (range_perm o). apply elem_of_map_to_list. Qed.

Lemma NoDup_fst_range {A} o (m : gmap string A) : NoDup (range o m).*1.
Proof. rewrite (range_perm o). apply NoDup_fst_map_to_list. Qed.

Lemma range_nil {A} o (m : gmap string A) : range o m = [] ↔ m = ∅.
Proof.
  split.
  - intros Hnil. apply map_to_list_empty_iff, Permutation_nil_r.
    by rewrite <-(range_perm o), Hnil.
  - intros ->. apply Permutation_nil_r. by rewrite (range_perm o), map_to_list_empty.
Qed.

(** ** The loader *)

Lemma addAllowedTools_spec tools allowed :
  addAllowedTools tools allowed = list_to_set (normalize <$> tools) ∪ allowed.
Proof.
  unfold addAllowedTools. revert allowed.
  induction tools as [|tool tools IH]; intros allowed; simpl.
  - set_solver.
  - rewrite IH. set_solver.
Qed.

Lemma compileArgs_inr tool entries acc compiled :
  compileArgs tool entries acc = inr compiled →
  NoDup entries.*1 →
  (∀ k p, (k, p) ∈ entries →
     ∃ re, Compile p = inr re ∧ compiled !! k = Some re) ∧
  (∀ k, k ∉ entries.*1 → compiled !! k = acc !! k).
Proof.
  revert acc. induction entries as [|[k0 p0] entries IH]; intros acc; simpl.
  - intros [= <-] _. split; [intros k p Hin; by apply elem_of_nil in Hin | done].
  - destruct (Compile p0) as [msg|re0] eqn:Hc; [done|].
    intros Hrest [Hk0 Hnd]%NoDup_cons.
    destruct (IH _ Hrest Hnd) as [Hin Hout]. split.
    + intros k p [[= -> ->]|Hkp]%elem_of_cons.
      * exists re0. split; [done|]. by rewrite (Hout _ Hk0), lookup_insert_eq.
      * by apply Hin.
    + intros k [Hne Hk]%not_elem_of_cons.
      by rewrite (Hout _ Hk), lookup_insert_ne.
Qed.

Lemma compileArgs_inl tool entries acc err :
  compileArgs tool entries acc = inl err →
  ∃ k p msg,
    (k, p) ∈ entries ∧ Compile p = inl msg ∧ err = ErrInvalidRegex tool k msg.
Proof.
  revert acc. induction entries as [|[k0 p0] entries IH]; intros acc; simpl; [done|].
  destruct (Compile p0) as [msg|re0] eqn:Hc.
  - intros [= <-]. exists k0, p0, msg. split; [left|done].
  - intros (k & p & msg & Hin & Hp & ->)%IH.
    exists k, p, msg. split; [by right|done].
Qed.

Lemma compileArgs_total tool entries acc :
  (∀ k p, (k, p) ∈ entries → ∃ re, Compile p = inr re) →
  ∃ compiled, compileArgs tool entries acc = inr compiled.
Proof.
  revert acc. induction entries as [|[k0 p0] entries IH]; intros acc Hall; simpl.
  - by eexists.
  - destruct (Hall k0 p0) as [re ->]; [left|].
    apply IH. intros k p Hin. apply (Hall k p). by right.
Qed.

(** Compiling the patterns of a rule, when it succeeds, gives a compiled
    rule. *)
Lemma compileArgs_compiledFrom o rule compiled :
  compileArgs (Tool rule) (range o (AllowArgs rule)) ∅ = inr compiled →
  compiledFrom
    {| Tool := Tool rule; AllowArgs := AllowArgs rule; compiledArgs := compiled |}.
Proof.
  intros Hc argName. simpl.
  destruct (compileArgs_inr _ _ _ _ Hc (NoDup_fst_range o _)) as [Hin Hout].
  destruct (AllowArgs rule !! argName) as [pattern|] eqn:Hp.
  - apply Hin. by apply elem_of_range.
  - rewrite Hout; [done|].
    intros ([k p] & -> & Hkp%elem_of_range)%list_elem_of_fmap. simpl in *. congruence.
Qed.

(** What the loop over the rules leaves behind when every pattern compiled:
    the allowed set has grown by the tools of the rules, and so have the
    keys of the rule map; every rule the loop stored is compiled, and comes
    from a rule of the document with the same normalized name. *)
Lemma compileToolRules_inr o rules finished allowed byName rules' :
  let loop := compileToolRules o rules finished allowed byName in
  loopResult loop = inr rules' →
  loopAllowed loop = ruledTools rules ∪ allowed ∧
  dom (loopRules loop) = ruledTools rules ∪ dom byName ∧
  ∀ name rule, loopRules loop !! name = Some rule →
    byName !! name = Some rule ∨
    compiledFrom rule ∧
    ∃ declared, declared ∈ rules ∧ normalize (Tool declared) = name ∧
      Tool rule = Tool declared ∧ AllowArgs rule = AllowArgs declared.
Proof.
  revert finished allowed byName.
  induction rules as [|r rules IH]; intros finished allowed byName; simpl.
  - intros _. unfold ruledTools. simpl. split_and!; [set_solver|set_solver|auto].
  - destruct (compileArgs _ _ _) as [err|compiled] eqn:Hc; [done|].
    intros Hres. destruct (IH _ _ _ Hres) as (Hallowed & Hdom & Hrules).
    split_and!.
    + rewrite Hallowed. unfold ruledTools. simpl. set_solver.
    + rewrite Hdom, dom_insert_L. unfold ruledTools. simpl. set_solver.
    + intros name rule Hname.
      destruct (Hrules _ _ Hname) as [Hold|(Hcomp & declared & Hin & ?)].
      * destruct (decide (normalize (Tool r) = name)) as [<-|Hne].
        -- rewrite lookup_insert_eq in Hold. injection Hold as <-. right. split.
           ++ by apply (compileArgs_compiledFrom o).
           ++ exists r. split_and!; [left|done..].
        -- rewrite lookup_insert_ne in Hold by done. by left.
      * right. split; [done|]. exists declared. split; [by right|done].
Qed.

(** The loop fails exactly on a pattern that does not compile, and its error
    carries the tool of the rule as declared, the argument and the message
    of [regexp.Compile]. *)
Lemma compileToolRules_inl o rules finished allowed byName err :
  loopResult (compileToolRules o rules finished allowed byName) = inl err →
  ∃ rule argName pattern msg,
    rule ∈ rules ∧ AllowArgs rule !! argName = Some pattern ∧
    Compile pattern = inl msg ∧ err = ErrInvalidRegex (Tool rule) argName msg.
Proof.
  revert finished allowed byName.
  induction rules as [|r rules IH]; intros finished allowed byName; simpl; [done|].
  destruct (compileArgs _ _ _) as [err'|compiled] eqn:Hc; simpl.
  - intros [= <-].
    apply compileArgs_inl in Hc as (k & p & msg & Hin%elem_of_range & Hp & ->).
    exists r, k, p, msg. split; [left|done].
  - intros (rule & k & p & msg & Hin & ?)%IH.
    exists rule, k, p, msg. split; [by right|done].
Qed.

Lemma compileToolRules_total o rules finished allowed byName :
  (∀ rule argName pattern,
     rule ∈ rules → AllowArgs rule !! argName = Some pattern →
     ∃ re, Compile pattern = inr re) →
  ∃ rules', loopResult (compileToolRules o rules finished allowed byName) = inr rules'.
Proof.
  revert finished allowed byName.
  induction rules as [|r rules IH]; intros finished allowed byName Hall; simpl.
  - by eexists.
  - destruct (compileArgs_total (Tool r) (range o (AllowArgs r)) ∅) as [compiled ->].
    { intros k p Hin%elem_of_range. apply (Hall r k p); [left|done]. }
    apply IH. intros rule k p Hin. apply Hall. by right.
Qed.

(** The loop only ever adds to the two maps it is given. *)
Lemma compileToolRules_grows o rules finished allowed byName :
  let loop := compileToolRules o rules finished allowed byName in
  allowed ⊆ loopAllowed loop ∧ dom byName ⊆ dom (loopRules loop).
Proof.
  revert finished allowed byName.
  induction rules as [|r rules IH]; intros finished allowed byName; simpl; [done|].
  destruct (compileArgs _ _ _) as [err|compiled]; simpl; [done|].
  destruct (IH (finished ++ [{| Tool := Tool r; AllowArgs := AllowArgs r;
                            compiledArgs := compiled |}])
              ({[normalize (Tool r)]} ∪ allowed)
              (<[normalize (Tool r) :=
                   {| Tool := Tool r; AllowArgs := AllowArgs r;
                      compiledArgs := compiled |}]> byName)) as [Ha Hd].
  split; [set_solver|]. rewrite dom_insert_L in Hd. set_solver.
Qed.

(** The keys of the rule map are in the allowed set at every point of the
    loop, also where it stops on an error. *)
Lemma compileToolRules_keys_allowed o rules finished allowed byName :
  let loop := compileToolRules o rules finished allowed byName in
  dom byName ⊆ allowed → dom (loopRules loop) ⊆ loopAllowed loop.
Proof.
  revert finished allowed byName.
  induction rules as [|r rules IH]; intros finished allowed byName; simpl; [done|].
  destruct (compileArgs _ _ _) as [err|compiled]; simpl; [done|].
  intros Hsub. apply IH. rewrite dom_insert_L. set_solver.
Qed.

(** *** [Load] as a whole *)

Lemma Load_success o e data e' :
  Load o e data = (e', None) →
  ∃ doc,
    Unmarshal data = inr doc ∧ validDocument doc ∧
    allowedSet e' = Some (ruledTools (ToolRules (Spec doc)) ∪ listedTools doc) ∧
    dom (toolRules e') = ruledTools (ToolRules (Spec doc)) ∧
    ∀ name rule, toolRules e' !! name = Some rule →
      compiledFrom rule ∧
      ∃ declared, declared ∈ ToolRules (Spec doc) ∧
        normalize (Tool declared) = name ∧
        Tool rule = Tool declared ∧ AllowArgs rule = AllowArgs declared.
Proof.
  unfold Load. destruct (Unmarshal data) as [msg|doc] eqn:Hdoc; [done|].
  case_bool_decide as Hver; [done|]. case_bool_decide as Hkind; [done|].
  destruct (loopResult _) as [err|rules'] eqn:Hloop; [done|].
  intros [= <-]. exists doc. simpl.
  destruct (compileToolRules_inr _ _ _ _ _ _ Hloop) as (Hallowed & Hdom & Hrules).
  split_and!; [done..| | |].
  - by rewrite Hallowed, addAllowedTools_spec, (right_id_L ∅ (∪)).
  - rewrite Hdom, dom_empty_L. set_solver.
  - intros name rule Hname.
    destruct (Hrules _ _ Hname) as [Hold|?]; [by rewrite lookup_empty in Hold|done].
Qed.


(** [Load] leaves the engine as it was when the document is rejected before
    compilation starts. *)
Lemma Load_rejected_unchanged o e data :
  match Unmarshal data with
  | inl _ => True
  | inr doc => ¬ validDocument doc
  end →
  (Load o e data).1 = e ∧ (Load o e data).2 ≠ None.
Proof.
  unfold Load, validDocument. destruct (Unmarshal data) as [msg|doc]; [done|].
  intros Hinvalid. repeat case_bool_decide; try done. destruct Hinvalid. split; [done|].
  by destruct (decide (Kind doc = "AgentPolicy")).
Qed.

(** If the loop ran to the end, every declared pattern compiled. *)
Lemma compileToolRules_inr_compile o rules finished allowed byName rules' :
  loopResult (compileToolRules o rules finished allowed byName) = inr rules' →
  ∀ rule argName pattern,
    rule ∈ rules → AllowArgs rule !! argName = Some pattern →
    ∃ re, Compile pattern = inr re.
Proof.
  revert finished allowed byName.
  induction rules as [|r rules IH]; intros finished allowed byName; simpl.
  - intros _ rule k p Hin. by apply elem_of_nil in Hin.
  - destruct (compileArgs _ _ _) as [?|compiled] eqn:Hc; simpl; [done|].
    intros Hloop rule k p [->|Hin]%elem_of_cons Hk; [|by eapply IH].
    destruct (compileArgs_inr _ _ _ _ Hc (NoDup_fst_range o _)) as [Hall _].
    destruct (Hall k p) as (re & Hre & _); [by apply elem_of_range|]. by exists re.
Qed.

(** Wherever the loop stops, it has allowed no tool but those of the rules. *)
Lemma compileToolRules_allowed_bound o rules finished allowed byName :
  loopAllowed (compileToolRules o rules finished allowed byName)
  ⊆ ruledTools rules ∪ allowed.
Proof.
  revert finished allowed byName.
  induction rules as [|r rules IH]; intros finished allowed byName; simpl.
  - set_solver.
  - destruct (compileArgs _ _ _) as [?|compiled]; simpl; [set_solver|].
    etrans; [apply IH|]. unfold ruledTools. simpl. set_solver.
Qed.

Lemma compileToolRules_rules_bound o rules finished allowed byName :
  dom (loopRules (compileToolRules o rules finished allowed byName))
  ⊆ ruledTools rules ∪ dom byName.
Proof.
  revert finished allowed byName.
  induction rules as [|r rules IH]; intros finished allowed byName; simpl.
  - set_solver.
  - destruct (compileArgs _ _ _) as [?|compiled]; simpl; [set_solver|].
    etrans; [apply IH|]. rewrite dom_insert_L. unfold ruledTools. simpl. set_solver.
Qed.

(** When a pattern of a valid document does not compile, [Load] fails, but
    by then it has replaced both maps of the engine: the allow-list of the
    rejected document is in force. *)
Lemma Load_bad_pattern o e data doc :
  Unmarshal data = inr doc → validDocument doc → badPattern doc →
  let e' := (Load o e data).1 in
  (Load o e data).2 ≠ None ∧ policy e' = policy e ∧
  listedTools doc ⊆ allowedTools e' ∧
  allowedTools e' ⊆ ruledTools (ToolRules (Spec doc)) ∪ listedTools doc ∧
  dom (toolRules e') ⊆ ruledTools (ToolRules (Spec doc)).
Proof.
  intros Hdoc [Hver Hkind] (rule & k & p & msg & Hin & Hk & Hp).
  unfold Load. rewrite Hdoc.
  rewrite bool_decide_eq_false_2 by done.
  rewrite bool_decide_eq_false_2 by (by intros []).
  pose proof (compileToolRules_grows o (ToolRules (Spec doc)) []
    (addAllowedTools (AllowedTools (Spec doc)) ∅) ∅) as [Hgrow _].
  pose proof (compileToolRules_allowed_bound o (ToolRules (Spec doc)) []
    (addAllowedTools (AllowedTools (Spec doc)) ∅) ∅) as Hbound.
  pose proof (compileToolRules_rules_bound o (ToolRules (Spec doc)) []
    (addAllowedTools (AllowedTools (Spec doc)) ∅) ∅) as Hrules.
  rewrite addAllowedTools_spec, (right_id_L ∅ (∪)) in Hgrow, Hbound, Hrules.
  rewrite addAllowedTools_spec, (right_id_L ∅ (∪)).
  fold (listedTools doc) in *.
  destruct (loopResult _) as [err|rules'] eqn:Hloop; simpl.
  - unfold allowedTools. simpl. split_and!; [done..|].
    rewrite dom_empty_L in Hrules. set_solver.
  - destruct (compileToolRules_inr_compile _ _ _ _ _ _ Hloop rule k p Hin Hk)
      as [re Hre]. congruence.
Qed.

(** ** The decision function *)

Lemma validateArgs_spec rule args entries :
  validateArgs rule args entries = allow ∧
    (∀ k re, (k, re) ∈ entries → argOK args k re = true) ∨
  ∃ k re,
    (k, re) ∈ entries ∧ argOK args k re = false ∧
    validateArgs rule args entries = deny k (default "" (AllowArgs rule !! k)).
Proof.
  induction entries as [|[k0 re0] entries IH]; simpl.
  - left. split; [done|]. intros k re Hin. by apply elem_of_nil in Hin.
  - destruct (argOK args k0 re0) eqn:Hok.
    + unfold argOK in Hok. destruct (args !! k0) as [v|] eqn:Hargs; [|done].
      rewrite Hok. simpl.
      destruct IH as [[-> Hall]|(k & re & Hin & Hfail & ->)].
      * left. split; [done|].
        intros k re [[= -> ->]|Hin]%elem_of_cons; [|by apply Hall].
        unfold argOK. by rewrite Hargs.
      * right. exists k, re. split; [by right|done].
    + right. exists k0, re0. split; [left|]. split; [done|].
      unfold argOK in Hok. destruct (args !! k0) as [v|]; [|done]. by rewrite Hok.
Qed.


(** Step 1 of [IsAllowed] decides alone for a tool outside the allowed set. *)
Lemma IsAllowed_outside e o tool args :
  normalize tool ∉ allowedTools e → IsAllowed o e tool args = deny "" "".
Proof.
  unfold IsAllowed, allowedTools. destruct (allowedSet e) as [allowed|]; simpl; [|done].
  intros Hout. by rewrite bool_decide_eq_true_2.
Qed.

(** For a tool in the allowed set the answer is that of steps 2 and 3. *)
Lemma IsAllowed_inside e o tool args :
  normalize tool ∈ allowedTools e →
  IsAllowed o e tool args =
    match toolRules e !! normalize tool with
    | None => allow
    | Some rule =>
        if bool_decide (size (compiledArgs rule) = 0) then allow
        else validateArgs rule args (range o (compiledArgs rule))
    end.
Proof.
  unfold IsAllowed, allowedTools. destruct (allowedSet e) as [allowed|]; simpl.
  - intros Hin. rewrite bool_decide_eq_false_2; [done|]. by intros [].
  - intros Hin. by apply not_elem_of_empty in Hin.
Qed.

(** A new engine denies every call. *)
Lemma NewEngine_denies o tool args : IsAllowed o NewEngine tool args = deny "" "".
Proof. apply IsAllowed_outside. unfold allowedTools. simpl. set_solver. Qed.

(** In a compiled rule, the matchers are as many as the declared patterns. *)
Lemma compiledFrom_dom rule : compiledFrom rule → dom (compiledArgs rule) = dom (AllowArgs rule).
Proof.
  intros Hc. apply set_eq. intros k. rewrite !elem_of_dom. specialize (Hc k).
  destruct (AllowArgs rule !! k) as [p|].
  - destruct Hc as (re & _ & ->). split; eauto.
  - rewrite Hc. split; by intros [].
Qed.

Lemma compiledFrom_empty rule :
  compiledFrom rule → compiledArgs rule = ∅ ↔ AllowArgs rule = ∅.
Proof.
  intros Hc%compiledFrom_dom. by rewrite <-!dom_empty_iff_L, Hc.
Qed.

(** Claim C3.  After every successful [Load], every tool name that is a key
    of the compiled-rule map is a member of the allowed set.  In particular
    a tool declared in a rule of the document, whether the allow-list names
    it or not, is in the allowed set, and [IsAllowed] does not deny it at
    the tool level: its answer is the one of the validation of the arguments
    against the stored rule. *)
Theorem rule_keys_allowed o e data e' :
  Load o e data = (e', None) →
  (∃ allowed, allowedSet e' = Some allowed ∧
     ∀ name, is_Some (toolRules e' !! name) → name ∈ allowed) ∧
  ∀ doc declared,
    Unmarshal data = inr doc → declared ∈ ToolRules (Spec doc) →
    normalize (Tool declared) ∈ allowedTools e' ∧
    ∃ rule,
      toolRules e' !! normalize (Tool declared) = Some rule ∧
      ∀ o' args,
        IsAllowed o' e' (Tool declared) args =
          if bool_decide (size (compiledArgs rule) = 0) then allow
          else validateArgs rule args (range o' (compiledArgs rule)).
Proof.
  intros (doc & Hdoc & _ & Hallowed & Hdom & _)%Load_success. split.
  - eexists. split; [done|]. intros name Hname%elem_of_dom.
    rewrite Hdom in Hname. set_solver.
  - intros doc' declared Hdoc' Hin. assert (doc' = doc) as -> by congruence.
    assert (normalize (Tool declared) ∈ ruledTools (ToolRules (Spec doc))) as Hruled.
    { apply elem_of_list_to_set, list_elem_of_fmap. by exists declared. }
    assert (normalize (Tool declared) ∈ allowedTools e') as Hin'.
    { unfold allowedTools. rewrite Hallowed. simpl. set_solver. }
    split; [done|].
    rewrite <-Hdom in Hruled. apply elem_of_dom in Hruled as [rule Hrule].
    exists rule. split; [done|]. intros o' args.
    by rewrite IsAllowed_inside, Hrule.
Qed.

(** Claim C5.  For every successfully loaded policy and every argument map:
    if the normalized tool name is not in the allowed set, [IsAllowed]
    returns [Allowed = false] with empty [FailedArg] and [FailedRule],
    whatever the arguments are; no argument rule is consulted, the answer
    is the same with any other rule map in the engine. *)
Theorem tool_outside_allowed_set_denied e o tool args :
  loadedBy e →
  normalize tool ∉ allowedTools e →
  IsAllowed o e tool args =
    {| Allowed := false; FailedArg := ""; FailedRule := "" |} ∧
  ∀ rules,
    IsAllowed o {| policy := policy e; allowedSet := allowedSet e;
                   toolRules := rules |} tool args =
      {| Allowed := false; FailedArg := ""; FailedRule := "" |}.
Proof.
  intros _ Hout. split; [by apply IsAllowed_outside|].
  intros rules. by apply IsAllowed_outside.
Qed.

(** Claim C6.  For every successfully loaded policy, every tool whose
    normalized name is in the allowed set and which has no compiled rule, or
    whose rule declares no argument pattern, and every argument map,
    [IsAllowed] returns [Allowed = true]. *)
Theorem tool_without_constraints_allowed e o tool args :
  loadedBy e →
  normalize tool ∈ allowedTools e →
  toolRules e !! normalize tool = None ∨
    (∃ rule, toolRules e !! normalize tool = Some rule ∧ AllowArgs rule = ∅) →
  IsAllowed o e tool args = {| Allowed := true; FailedArg := ""; FailedRule := "" |}.
Proof.
  intros (o0 & e0 & data & Hload) Hin Hrule. rewrite IsAllowed_inside by done.
  destruct Hrule as [->|(rule & Hrule & Hempty)]; [done|]. rewrite Hrule.
  apply Load_success in Hload as (doc & _ & _ & _ & _ & Hrules).
  destruct (Hrules _ _ Hrule) as [Hc _].
  apply (compiledFrom_empty _ Hc) in Hempty. rewrite Hempty, map_size_empty.
  by rewrite bool_decide_eq_true_2.
Qed.


(** *** Constrained arguments *)

Lemma satisfies_not_violates args argName pattern :
  satisfies args argName pattern ↔ ¬ violates args argName pattern.
Proof.
  unfold satisfies, violates. destruct (args !! argName) as [v|].
  - destruct (matches pattern (argToString v)) eqn:Hm.
    + split; [|by eauto]. intros _ [?|(v' & [= <-] & ?)]; congruence.
    + split; [intros (v' & [= <-] & ?); congruence|]. intros []. right. eauto.
  - split; [by intros (? & ? & _)|]. intros []. by left.
Qed.

(** In a compiled rule, the entries the loop of [validateArgs] visits are the
    declared arguments, each with the matcher of its pattern. *)
Lemma compiledFrom_entry rule o k re :
  compiledFrom rule →
  (k, re) ∈ range o (compiledArgs rule) ↔
  ∃ p, AllowArgs rule !! k = Some p ∧ Compile p = inr re.
Proof.
  intros Hc. rewrite elem_of_range. specialize (Hc k).
  destruct (AllowArgs rule !! k) as [p|].
  - destruct Hc as (re' & Hre' & ->). split.
    + intros [= ->]. eauto.
    + intros (p' & [= <-] & ?). congruence.
  - rewrite Hc. split; [done|]. by intros (? & ? & _).
Qed.

Lemma argOK_satisfies args k p re :
  Compile p = inr re → argOK args k re = true ↔ satisfies args k p.
Proof.
  intros Hre. unfold argOK, satisfies, matches. rewrite Hre.
  destruct (args !! k) as [v|]; [|by split; [|intros (? & ? & _)]].
  split; [eauto|]. by intros (v' & [= <-] & ?).
Qed.

Lemma argOK_violates args k p re :
  Compile p = inr re → argOK args k re = false ↔ violates args k p.
Proof.
  intros Hre. unfold argOK, violates, matches. rewrite Hre.
  destruct (args !! k) as [v|]; [|by split; [left|]].
  split; [eauto|]. by intros [?|(v' & [= <-] & ?)].
Qed.


(** A loaded engine keeps its invariant: the keys of the rule map are
    allowed, and the rules in it are compiled. *)
Lemma loadedBy_rule e name rule :
  loadedBy e → toolRules e !! name = Some rule →
  name ∈ allowedTools e ∧ compiledFrom rule.
Proof.
  intros (o0 & e0 & data & Hload) Hrule.
  apply Load_success in Hload as (doc & _ & _ & Hallowed & Hdom & Hrules).
  split; [|by apply (Hrules _ _ Hrule)].
  unfold allowedTools. rewrite Hallowed. simpl. apply elem_of_union_l.
  rewrite <-Hdom. by apply elem_of_dom.
Qed.

(** The two outcomes of [IsAllowed] on a tool with constrained arguments:
    it allows, and every declared argument is satisfied; or it denies with
    a declared argument that is violated and with the pattern declared for
    it. *)
Lemma IsAllowed_constrained e o tool rule args :
  loadedBy e → toolRules e !! normalize tool = Some rule → AllowArgs rule ≠ ∅ →
  IsAllowed o e tool args = allow ∧
    (∀ A P, AllowArgs rule !! A = Some P → satisfies args A P) ∨
  ∃ A P,
    AllowArgs rule !! A = Some P ∧ violates args A P ∧
    IsAllowed o e tool args = deny A P.
Proof.
  intros Hloaded Hrule Hnonempty.
  destruct (loadedBy_rule _ _ _ Hloaded Hrule) as [Hin Hc].
  rewrite IsAllowed_inside, Hrule by done.
  rewrite bool_decide_eq_false_2; last first.
  { rewrite map_size_empty_iff. by rewrite (compiledFrom_empty _ Hc). }
  destruct (validateArgs_spec rule args (range o (compiledArgs rule)))
    as [[-> Hall]|(k & re & Hentry & Hfail & ->)].
  - left. split; [done|]. intros A P HP.
    pose proof (Hc A) as HcA. rewrite HP in HcA. destruct HcA as (re & Hre & HA).
    apply (argOK_satisfies _ _ _ _ Hre), Hall. by apply elem_of_range.
  - right. apply (compiledFrom_entry _ _ _ _ Hc) in Hentry as (p & Hp & Hre).
    exists k, p. rewrite Hp. simpl. split_and!; [done| |done].
    by apply (argOK_violates _ _ _ _ Hre).
Qed.

(** The loop of [validateArgs] denies at the first entry, in the order it
    visits them, whose argument does not pass its matcher. *)
Lemma validateArgs_first rule args entries :
  Allowed (validateArgs rule args entries) = false →
  ∃ before k re after,
    entries = before ++ (k, re) :: after ∧
    (∀ k' re', (k', re') ∈ before → argOK args k' re' = true) ∧
    argOK args k re = false ∧
    validateArgs rule args entries = deny k (default "" (AllowArgs rule !! k)).
Proof.
  induction entries as [|[k0 re0] entries IH]; simpl; [done|].
  destruct (argOK args k0 re0) eqn:Hok.
  - unfold argOK in Hok. destruct (args !! k0) as [v|] eqn:Hargs; [|done].
    rewrite Hok. simpl.
    intros (before & k & re & after & -> & Hbefore & Hfail & ->)%IH.
    exists ((k0, re0) :: before), k, re, after. split_and!; [done| |done..].
    intros k' re' [[= -> ->]|Hin]%elem_of_cons; [|by apply Hbefore].
    unfold argOK. by rewrite Hargs.
  - intros _. exists [], k0, re0, entries. split_and!; [done| |done|].
    + intros k' re' Hin. by apply elem_of_nil in Hin.
    + unfold argOK in Hok. destruct (args !! k0) as [v|]; [|done]. by rewrite Hok.
Qed.

(** Claim C4, as amended.  For every successfully loaded policy, every tool
    that has a compiled rule with at least one constrained argument (such a
    tool is in the allowed set, by C3), and every argument map:
    [IsAllowed] returns [Allowed = true] if and only if every constrained
    argument is present and its text form matches its pattern; a denial
    reports a constrained argument that is absent or whose text form does
    not match, together with the pattern declared for that argument, and
    this argument is the first such one in the order in which the call
    iterates over the compiled patterns of the rule: the arguments visited
    before it are constrained and satisfied; and if a constrained argument
    [A] with pattern [P] is absent or does not match, [IsAllowed] denies,
    with [FailedArg = A] and [FailedRule = P] when [A] is the only such
    argument. *)
Theorem constrained_arguments_decide e o tool rule args :
  loadedBy e →
  toolRules e !! normalize tool = Some rule →
  AllowArgs rule ≠ ∅ →
  let result := IsAllowed o e tool args in
  (Allowed result = true ↔
     ∀ A P, AllowArgs rule !! A = Some P → satisfies args A P) ∧
  (Allowed result = false →
     ∃ before A re after P,
       range o (compiledArgs rule) = before ++ (A, re) :: after ∧
       (∀ A' re', (A', re') ∈ before →
          ∃ P', AllowArgs rule !! A' = Some P' ∧ satisfies args A' P') ∧
       AllowArgs rule !! A = Some P ∧ violates args A P ∧
       FailedArg result = A ∧ FailedRule result = P) ∧
  (∀ A P, AllowArgs rule !! A = Some P → violates args A P →
     Allowed result = false ∧
     ((∀ A' P', AllowArgs rule !! A' = Some P' → violates args A' P' → A' = A) →
      result = {| Allowed := false; FailedArg := A; FailedRule := P |})).
Proof.
  intros Hloaded Hrule Hnonempty result.
  assert (Allowed result = false →
          ∃ before A re after P,
            range o (compiledArgs rule) = before ++ (A, re) :: after ∧
            (∀ A' re', (A', re') ∈ before →
               ∃ P', AllowArgs rule !! A' = Some P' ∧ satisfies args A' P') ∧
            AllowArgs rule !! A = Some P ∧ violates args A P ∧
            FailedArg result = A ∧ FailedRule result = P) as Hfirst.
  { subst result. destruct (loadedBy_rule _ _ _ Hloaded Hrule) as [Hin Hc].
    rewrite IsAllowed_inside, Hrule by done.
    rewrite bool_decide_eq_false_2; last first.
    { rewrite map_size_empty_iff. by rewrite (compiledFrom_empty _ Hc). }
    intros (before & k & re & after & Hentries & Hbefore & Hfail & ->)%validateArgs_first.
    assert ((k, re) ∈ range o (compiledArgs rule)) as Hentry.
    { rewrite Hentries. apply elem_of_app. right. left. }
    apply (compiledFrom_entry _ _ _ _ Hc) in Hentry as (p & Hp & Hre).
    exists before, k, re, after, p. rewrite Hp. simpl. split_and!; [done| |done| |done..].
    - intros k' re' Hin'.
      assert ((k', re') ∈ range o (compiledArgs rule)) as Hentry'.
      { rewrite Hentries. apply elem_of_app. by left. }
      apply (compiledFrom_entry _ _ _ _ Hc) in Hentry' as (p' & Hp' & Hre').
      exists p'. split; [done|]. by apply (argOK_satisfies _ _ _ _ Hre'), Hbefore.
    - by apply (argOK_violates _ _ _ _ Hre). }
  destruct (IsAllowed_constrained e o tool rule args Hloaded Hrule Hnonempty)
    as [[Hres Hall]|(A0 & P0 & HP0 & Hv0 & Hres)].
  - split_and!; [|exact Hfirst|]; subst result; rewrite Hres; simpl; [done|].
    intros A P HP Hv. by apply Hall, satisfies_not_violates in HP.
  - split_and!; [|exact Hfirst|]; subst result; rewrite Hres; simpl.
    + split; [done|]. intros Hall. by apply Hall, satisfies_not_violates in HP0.
    + intros A P HP Hv. split; [done|]. intros Honly.
      assert (A0 = A) as -> by eauto. unfold deny. congruence.
Qed.

(** The loop of [validateArgs] reads the argument map at the visited names
    only. *)
Lemma validateArgs_ext rule args1 args2 entries :
  (∀ k re, (k, re) ∈ entries → args1 !! k = args2 !! k) →
  validateArgs rule args1 entries = validateArgs rule args2 entries.
Proof.
  induction entries as [|[k re] entries IH]; intros Hagree; simpl; [done|].
  rewrite (Hagree k re) by left. rewrite IH; [done|].
  intros k' re' Hin. apply (Hagree k' re'). by right.
Qed.

(** The verdict of the loop does not depend on the order of the entries. *)
Lemma validateArgs_Allowed rule args entries :
  Allowed (validateArgs rule args entries) = true ↔
  ∀ k re, (k, re) ∈ entries → argOK args k re = true.
Proof.
  destruct (validateArgs_spec rule args entries)
    as [[-> Hall]|(k & re & Hentry & Hfail & ->)]; simpl; [done|].
  split; [done|]. intros Hall. rewrite (Hall _ _ Hentry) in Hfail. done.
Qed.

(** Claim C10.  For every successfully loaded policy, every tool with a
    compiled rule, and every two argument maps that agree on all argument
    names constrained by the rule, [IsAllowed] returns the same result for
    both maps.  The verdict is the same even if the two calls visit the
    constrained arguments in different orders. *)
Theorem unconstrained_arguments_ignored e o tool rule args1 args2 :
  loadedBy e →
  toolRules e !! normalize tool = Some rule →
  (∀ A, is_Some (AllowArgs rule !! A) → args1 !! A = args2 !! A) →
  IsAllowed o e tool args1 = IsAllowed o e tool args2 ∧
  ∀ o', Allowed (IsAllowed o e tool args1) = Allowed (IsAllowed o' e tool args2).
Proof.
  intros Hloaded Hrule Hagree.
  destruct (loadedBy_rule _ _ _ Hloaded Hrule) as [Hin Hc].
  assert (∀ o' k re, (k, re) ∈ range o' (compiledArgs rule) →
            args1 !! k = args2 !! k) as Hagree'.
  { intros o' k re (p & Hp & _)%(compiledFrom_entry _ _ _ _ Hc).
    apply Hagree. by rewrite Hp. }
  split.
  - rewrite !IsAllowed_inside, Hrule by done. case_bool_decide; [done|].
    apply validateArgs_ext, Hagree'.
  - intros o'. rewrite !IsAllowed_inside, Hrule by done. case_bool_decide; [done|].
    rewrite (validateArgs_ext rule args1 args2) by apply Hagree'.
    apply eq_true_iff_eq. rewrite !validateArgs_Allowed.
    split; intros Hall k re Hentry%elem_of_range; apply Hall; by apply elem_of_range.
Qed.


(** *** Tool names *)

(** [IsAllowed] uses the tool name through its normal form only. *)
Lemma IsAllowed_normalize_eq e o tool1 tool2 args :
  normalize tool1 = normalize tool2 →
  IsAllowed o e tool1 args = IsAllowed o e tool2 args.
Proof. unfold IsAllowed. by intros ->. Qed.

(** *** Errors of [Load] *)

(** Claim C8.  [Load] returns an error if and only if the document does not
    parse, or its schema version is empty, or its kind is not [AgentPolicy],
    or some argument pattern does not compile.  The error for a missing
    schema version names the field [apiVersion]; the error for a wrong kind
    says [kind] and quotes the value found; the error for a pattern names,
    quoted, the tool of the rule as declared and the argument whose pattern
    did not compile. *)
Theorem Load_error_iff o e data :
  let err := (Load o e data).2 in
  (err ≠ None ↔
     (∃ msg, Unmarshal data = inl msg) ∨
     ∃ doc, Unmarshal data = inr doc ∧
       (APIVersion doc = "" ∨ Kind doc ≠ "AgentPolicy" ∨ badPattern doc)) ∧
  match err with
  | None => True
  | Some err =>
      (∃ msg, Unmarshal data = inl msg ∧
         errorText err = "failed to parse policy YAML: " +:+ msg) ∨
      ∃ doc, Unmarshal data = inr doc ∧
        (APIVersion doc = "" ∧
           errorText err = "policy missing required field: apiVersion" ∨
         APIVersion doc ≠ "" ∧ Kind doc ≠ "AgentPolicy" ∧
           errorText err =
             "unexpected kind " +:+ Sprintf_q (Kind doc) +:+ ", expected AgentPolicy" ∨
         validDocument doc ∧
           ∃ rule argName pattern msg,
             rule ∈ ToolRules (Spec doc) ∧
             AllowArgs rule !! argName = Some pattern ∧
             Compile pattern = inl msg ∧
             errorText err =
               "invalid regex for tool " +:+ Sprintf_q (Tool rule) +:+ " arg " +:+
               Sprintf_q argName +:+ ": " +:+ msg)
  end.
Proof.
  unfold Load. destruct (Unmarshal data) as [msg|doc] eqn:Hdoc; simpl.
  { split; [split; [intros _; left; by eexists|done]|]. left. by exists msg. }
  case_bool_decide as Hver; simpl.
  { split; [split; [|done]|].
    - intros _. right. exists doc. auto.
    - right. exists doc. split; [done|]. by left. }
  case_bool_decide as Hkind; simpl.
  { split; [split; [|done]|].
    - intros _. right. exists doc. auto.
    - right. exists doc. split; [done|]. right. left. done. }
  destruct (loopResult _) as [err|rules'] eqn:Hloop; simpl.
  - apply compileToolRules_inl in Hloop as (rule & k & p & msg & Hin & Hk & Hp & ->).
    split; [split; [|done]|].
    + intros _. right. exists doc. split; [done|]. right. right.
      by exists rule, k, p, msg.
    + right. exists doc. split; [done|]. right. right. split; [done|].
      by exists rule, k, p, msg.
  - split; [|done]. split; [done|]. intros [[msg [=]]|(doc' & [= <-] & Hbad)].
    destruct Hbad as [?|[?|(rule & k & p & msg & Hin & Hk & Hp)]]; [done..|].
    destruct (compileToolRules_inr_compile _ _ _ _ _ _ Hloop rule k p Hin Hk)
      as [re Hre]. congruence.
Qed.

End properties.

(** ** The text form of numbers *)

Lemma list_ascii_of_string_app (s1 s2 : string) :
  String.list_ascii_of_string (s1 +:+ s2) =
  String.list_ascii_of_string s1 ++ String.list_ascii_of_string s2.
Proof. induction s1 as [|c s1 IH]; simpl; [done|]. by rewrite <-IH. Qed.

Lemma isDigit_pretty_N_char (x : N) : isDigit (pretty_N_char x) = true.
Proof. unfold pretty_N_char. by repeat case_match. Qed.

(** The digits [pretty_N_go] puts in front of the text it is given: digits
    only, and the first of them is not a zero. *)
Lemma pretty_N_go_digits (x : N) (s : string) :
  ∃ pre,
    String.list_ascii_of_string (pretty_N_go x s) =
      pre ++ String.list_ascii_of_string s ∧
    Forall (λ c, isDigit c = true) pre ∧
    ((0 < x)%N → ∃ c rest, pre = c :: rest ∧ c ≠ "0"%char).
Proof.
  revert s. induction (N.lt_wf_0 x) as [x _ IH]; intros s.
  destruct (decide (x = 0%N)) as [->|Hpos];
    [|destruct (decide (x < 10)%N) as [Hsmall|Hlarge]].
  - exists []. rewrite pretty_N_go_0. split_and!; [done|done|lia].
  - rewrite pretty_N_go_step by lia.
    replace (x `div` 10)%N with 0%N by (symmetry; apply N.div_small; lia).
    rewrite pretty_N_go_0, N.mod_small by lia.
    exists [pretty_N_char x]. split_and!; [done| |].
    + constructor; [apply isDigit_pretty_N_char|done].
    + intros _. eexists _, _. split; [done|].
      intros Hzero. assert (x = 0%N); [|lia].
      apply pretty_N_char_inj; [lia..|done].
  - rewrite pretty_N_go_step by lia.
    destruct (IH (x `div` 10)%N) with (s := String (pretty_N_char (x `mod` 10)) s)
      as (pre & Hpre & Hdigits & Hhead).
    { apply N.div_lt; lia. }
    exists (pre ++ [pretty_N_char (x `mod` 10)]). split_and!.
    + rewrite Hpre. simpl. by rewrite <-app_assoc.
    + apply Forall_app. split; [done|].
      constructor; [apply isDigit_pretty_N_char|done].
    + intros _. destruct Hhead as (c & rest & -> & Hc).
      { apply N.div_str_pos. lia. }
      by eexists _, _.
Qed.

Lemma pretty_positive_digits (p : positive) :
  ∃ c rest,
    String.list_ascii_of_string (pretty (Z.pos p)) = c :: rest ∧
    c ≠ "0"%char ∧ Forall (λ c, isDigit c = true) (c :: rest).
Proof.
  destruct (pretty_N_go_digits (Npos p) "") as (pre & Hpre & Hdigits & Hhead).
  destruct Hhead as (c & rest & -> & Hc); [lia|].
  exists c, rest. split; [|done].
  rewrite app_nil_r in Hpre. by rewrite <-Hpre.
Qed.

Lemma digitsThenFraction_app ints tail :
  Forall (λ c, isDigit c = true) ints →
  digitsThenFraction (ints ++ tail) = digitsThenFraction tail.
Proof. induction 1 as [|c ints Hc _ IH]; simpl; [done|]. by rewrite Hc. Qed.

Lemma isDigit_not_minus c : isDigit c = true → c ≠ "-"%char.
Proof. by intros Hc ->. Qed.

(** Digits, the first of which is not a minus sign, followed by [tail]. *)
Lemma plainDecimal_digits (neg : bool) c ints tail :
  Forall (λ c, isDigit c = true) (c :: ints) →
  plainDecimal (String.string_of_list_ascii
                  ((if neg then ["-"%char] else []) ++ (c :: ints) ++ tail)) =
  digitsThenFraction tail.
Proof.
  intros [Hc Hints]%Forall_cons. unfold plainDecimal.
  rewrite String.list_ascii_of_string_of_list_ascii.
  destruct neg; simpl.
  - by rewrite Hc, digitsThenFraction_app.
  - rewrite bool_decide_eq_false_2 by by apply isDigit_not_minus.
    by rewrite Hc, digitsThenFraction_app.
Qed.

(** Claim C9 for [int]: [%d] gives plain decimal form. *)
Lemma plainDecimal_Sprintf_d (val : Z) : plainDecimal (Sprintf_d val) = true.
Proof.
  unfold Sprintf_d. destruct val as [|p|p].
  - done.
  - destruct (pretty_positive_digits p) as (c & rest & Hp & _ & Hdigits).
    rewrite <-(String.string_of_list_ascii_of_string (pretty (Z.pos p))), Hp.
    pose proof (plainDecimal_digits false c rest [] Hdigits) as Hplain.
    simpl in Hplain. by rewrite app_nil_r in Hplain.
  - destruct (pretty_positive_digits p) as (c & rest & Hp & _ & Hdigits).
    change (pretty (Z.neg p)) with ("-" +:+ pretty (Z.pos p)).
    rewrite <-(String.string_of_list_ascii_of_string ("-" +:+ pretty (Z.pos p))).
    rewrite list_ascii_of_string_app, Hp.
    pose proof (plainDecimal_digits true c rest [] Hdigits) as Hplain.
    simpl in Hplain. by rewrite app_nil_r in Hplain.
Qed.

(** *** The shortest digits of a float *)

Local Open Scope Z_scope.

Lemma scaleDec_unit_pos E t : 0 < scaleDec 1 E t.
Proof.
  unfold scaleDec.
  assert (0 < 10 ^ Z.max t 0) by (apply Z.pow_pos_nonneg; lia).
  assert (0 < 2 ^ Z.max (- E) 0) by (apply Z.pow_pos_nonneg; lia).
  nia.
Qed.

Lemma scaleDec_unit c E t : scaleDec c E t = c * scaleDec 1 E t.
Proof. unfold scaleDec. lia. Qed.

Lemma scaleBin_pos X E t : 0 < X → 0 < scaleBin X E t.
Proof.
  intros HX. unfold scaleBin.
  assert (0 < 2 ^ Z.max E 0) by (apply Z.pow_pos_nonneg; lia).
  assert (0 < 10 ^ Z.max (- t) 0) by (apply Z.pow_pos_nonneg; lia).
  nia.
Qed.

(** A decimal in the interval of a positive float is positive. *)
Lemma inInterval_pos incl L U E c t :
  0 < L → inInterval incl L U E c t = true → 0 < c.
Proof.
  intros HL%(scaleBin_pos _ E t). unfold inInterval.
  rewrite (scaleDec_unit c). pose proof (scaleDec_unit_pos E t).
  destruct incl; intros [Hlow _]%andb_prop; [apply Z.leb_le in Hlow|apply Z.ltb_lt in Hlow];
    nia.
Qed.

Lemma roundNearest_cases V E t :
  let down := scaleBin V E t / scaleDec 1 E t in
  roundNearest V E t = down ∨ roundNearest V E t = down + 1.
Proof. intros down. unfold roundNearest. fold down. repeat case_match; auto. Qed.

Lemma shortestFrom_pos fuel incl L V U E p n :
  0 < L → 0 < V → 0 < (shortestFrom fuel incl L V U E p n).1.
Proof.
  intros HL HV. revert n. induction fuel as [|fuel IH]; intros n; simpl.
  - pose proof (scaleDec_unit_pos E (p - n + 1)).
    pose proof (scaleBin_pos V E (p - n + 1) HV).
    assert (0 ≤ scaleBin V E (p - n + 1) / scaleDec 1 E (p - n + 1))
      by (apply Z.div_pos; lia).
    lia.
  - destruct (inInterval _ _ _ _ (scaleBin _ _ _ / _) _) eqn:Hdown.
    + apply inInterval_pos in Hdown; [|done].
      destruct (inInterval _ _ _ _ (_ + 1) _); simpl; [|done].
      destruct (roundNearest_cases V E (p - n + 1)) as [-> | ->]; lia.
    + destruct (inInterval _ _ _ _ (_ + 1) _) eqn:Hup; simpl; [|apply IH].
      by apply inInterval_pos in Hup.
Qed.

Local Close Scope Z_scope.

Lemma trimZeros_cons_ne c digits :
  c ≠ "0"%char → trimZeros (c :: digits) = c :: digits.
Proof. intros Hc. simpl. by destruct c as [[] [] [] [] [] [] [] []]. Qed.

Lemma trimZeros_digits digits :
  Forall (λ c, isDigit c = true) digits →
  Forall (λ c, isDigit c = true) (trimZeros digits).
Proof.
  induction 1 as [|c digits Hc Hdigits IH]; [done|].
  destruct (decide (c = "0"%char)) as [->|Hne]; [done|].
  rewrite trimZeros_cons_ne by done. by constructor.
Qed.

Lemma trimZeros_head digits : head (trimZeros digits) ≠ Some "0"%char.
Proof.
  induction digits as [|c digits IH]; [done|].
  destruct (decide (c = "0"%char)) as [->|Hne]; [done|].
  rewrite trimZeros_cons_ne by done. simpl. congruence.
Qed.

Lemma trimZeros_nonempty digits :
  (∃ c, c ∈ digits ∧ c ≠ "0"%char) → trimZeros digits ≠ [].
Proof.
  induction digits as [|c digits IH]; intros (c' & Hin & Hc').
  - by apply elem_of_nil in Hin.
  - destruct (decide (c = "0"%char)) as [->|Hne].
    + apply IH. exists c'. split; [|done].
      apply elem_of_cons in Hin as [->|Hin]; done.
    + by rewrite trimZeros_cons_ne.
Qed.

(** The shortest digits of a float: at least one, digits only, and the last
    is not a zero. *)
Lemma shortestDigits_digits m e :
  let digs := shortestDigits m e in
  d digs ≠ [] ∧ Forall (λ c, isDigit c = true) (d digs) ∧
  last (d digs) ≠ Some "0"%char.
Proof.
  unfold shortestDigits.
  match goal with |- context [shortestFrom ?f ?i ?L ?V ?U ?E ?p ?n] =>
    pose proof (shortestFrom_pos f i L V U E p n) as Hpos;
    destruct (shortestFrom f i L V U E p n) as [c t] end.
  simpl in *.
  destruct c as [|q|q]; [exfalso; apply (Z.lt_irrefl 0), Hpos; [case_match|]; lia| |
    exfalso; assert (0 < Z.neg q)%Z by (apply Hpos; [case_match|]; lia); lia].
  destruct (pretty_positive_digits q) as (c & rest & -> & Hc & Hdigits).
  split_and!.
  - intros Hnil%(f_equal reverse). rewrite reverse_involutive in Hnil.
    revert Hnil. apply trimZeros_nonempty. exists c. split; [|done].
    rewrite elem_of_reverse. by left.
  - by apply Forall_reverse, trimZeros_digits, Forall_reverse.
  - rewrite last_reverse. apply trimZeros_head.
Qed.

(** *** The two formats *)

Lemma fractionOK_intro l :
  l ≠ [] → Forall (λ c, isDigit c = true) l → last l ≠ Some "0"%char →
  fractionOK l = true.
Proof.
  induction l as [|c rest IH]; [done|]. intros _ [Hc Hrest]%Forall_cons Hlast.
  simpl. rewrite Hc. simpl. destruct rest as [|c' rest].
  - apply negb_true_iff, bool_decide_eq_false_2. simpl in Hlast. congruence.
  - by apply IH.
Qed.

Lemma fractionOK_digits l : fractionOK l = true → Forall (λ c, isDigit c = true) l.
Proof.
  induction l as [|c rest IH]; [done|]. simpl.
  intros [Hc Hrest]%andb_prop. constructor; [done|].
  destruct rest; [done|]. by apply IH.
Qed.

(** A text in plain decimal form has digits, points and minus signs only. *)
Lemma plainDecimal_chars s :
  plainDecimal s = true →
  Forall (λ c, isDigit c = true ∨ c = "."%char ∨ c = "-"%char)
    (String.list_ascii_of_string s).
Proof.
  assert (∀ l, digitsThenFraction l = true →
    Forall (λ c, isDigit c = true ∨ c = "."%char ∨ c = "-"%char) l) as Htail.
  { induction l as [|c rest IH]; [done|]. simpl.
    destruct (isDigit c) eqn:Hc.
    - intros Hrest. constructor; auto.
    - intros [->%bool_decide_eq_true Hrest%fractionOK_digits]%andb_prop.
      constructor; [auto|]. eapply Forall_impl; [done|]. auto. }
  assert (∀ l, unsignedDecimal l = true →
    Forall (λ c, isDigit c = true ∨ c = "."%char ∨ c = "-"%char) l) as Hunsigned.
  { intros [|c rest]; [done|]. simpl. intros [Hc Hrest]%andb_prop.
    constructor; auto. }
  unfold plainDecimal. destruct (String.list_ascii_of_string s) as [|c rest]; [done|].
  case_bool_decide as Hminus; [|by apply Hunsigned].
  intros Hrest. constructor; auto.
Qed.

Lemma isDigit_digitAt digs j :
  Forall (λ c, isDigit c = true) (d digs) → isDigit (digitAt digs j) = true.
Proof.
  intros Hdigits. unfold digitAt. case_match; [|done].
  destruct (d digs !! Z.to_nat j) as [c|] eqn:Hj; [|done].
  simpl. by eapply (Forall_lookup_1 _ _ _ _ Hdigits).
Qed.

Lemma isDigit_zeros n : Forall (λ c, isDigit c = true) (zeros n).
Proof. unfold zeros. by apply Forall_replicate. Qed.

(** [%f] on digits without a trailing zero, with as many digits after the
    point as the digits reach, is in plain decimal form. *)
Lemma plainDecimal_fmtF neg digs :
  d digs ≠ [] → Forall (λ c, isDigit c = true) (d digs) →
  last (d digs) ≠ Some "0"%char →
  plainDecimal
    (String.string_of_list_ascii (fmtF neg digs (Z.max (nd digs - dp digs) 0)))
  = true.
Proof.
  intros Hne Hdigits Hlast. unfold fmtF.
  assert (1 ≤ nd digs)%Z as Hnd.
  { unfold nd. destruct (d digs); [done|]. simpl. lia. }
  (* the integer part *)
  match goal with |- context [(?sign ++ ?int ++ ?frac)] =>
    assert (∃ c ints, int = c :: ints ∧ Forall (λ c, isDigit c = true) (c :: ints))
      as (c & ints & -> & Hints);
    [|rewrite (plainDecimal_digits neg c ints frac Hints)] end.
  { case_match eqn:Hdp.
    - apply Z.ltb_lt in Hdp.
      destruct (d digs) as [|c rest] eqn:Hd; [done|].
      destruct (Z.to_nat (Z.min (nd digs) (dp digs))) as [|k] eqn:Hk; [lia|].
      simpl. eexists _, _. split; [done|].
      apply Forall_cons in Hdigits as [Hc Hrest]. constructor; [done|].
      apply Forall_app. split; [by apply Forall_take|apply isDigit_zeros].
    - eexists _, _. split; [done|]. by constructor. }
  (* the fraction *)
  case_match eqn:Hprec; [|done]. apply Z.ltb_lt in Hprec.
  simpl. apply fractionOK_intro.
  - destruct (Z.to_nat _) eqn:Hk; [lia|done].
  - apply Forall_map, Forall_forall. intros i _. by apply isDigit_digitAt.
  - destruct (Z.to_nat (Z.max (nd digs - dp digs) 0)) as [|k] eqn:Hk; [lia|].
    rewrite seq_S, map_app. cbn [map]. rewrite last_snoc, Nat.add_0_l.
    assert (dp digs + Z.of_nat k = nd digs - 1)%Z as -> by lia.
    unfold digitAt.
    assert ((0 <=? nd digs - 1)%Z && (nd digs - 1 <? nd digs)%Z = true) as ->.
    { apply andb_true_intro. split; [apply Z.leb_le|apply Z.ltb_lt]; lia. }
    rewrite last_lookup in Hlast.
    assert (Z.to_nat (nd digs - 1) = pred (length (d digs))) as ->
      by (unfold nd; lia).
    destruct (d digs !! pred (length (d digs))) as [x|] eqn:Hx; simpl; [congruence|].
    apply lookup_ge_None in Hx. unfold nd in Hnd. lia.
Qed.

(** [%e] is never in plain decimal form. *)
Lemma plainDecimal_fmtE neg digs prec :
  plainDecimal (String.string_of_list_ascii (fmtE neg digs prec)) = false.
Proof.
  apply not_true_is_false. intros Hchars%plainDecimal_chars.
  rewrite String.list_ascii_of_string_of_list_ascii in Hchars.
  unfold fmtE in Hchars. rewrite Forall_forall in Hchars.
  destruct (Hchars "e"%char) as [?|[?|?]]; [|done..].
  apply elem_of_app. right. apply elem_of_cons. right.
  apply elem_of_app. right. by left.
Qed.

(** The values that [%v] prints in plain decimal form. *)
Lemma plainDecimal_FormatFloat (val : float) :
  plainDecimal (FormatFloat val) = true ↔ plainRange val.
Proof.
  unfold FormatFloat, plainRange.
  destruct (Prim2SF val) as [neg|neg| |neg m e].
  - by destruct neg.
  - by destruct neg.
  - done.
  - destruct (shortestDigits_digits m e) as (Hne & Hdigits & Hlast).
    unfold formatDigits. case_match eqn:Hexp.
    + rewrite plainDecimal_fmtE. split; [done|].
      apply orb_prop in Hexp as [?%Z.ltb_lt|?%Z.leb_le]; lia.
    + rewrite plainDecimal_fmtF by done. split; [|done]. intros _.
      apply orb_false_elim in Hexp as [?%Z.ltb_ge ?%Z.leb_gt]. lia.
Qed.

(** Claim C9, as amended.  The text form used before pattern matching passes
    text through unchanged and renders booleans as [true] or [false]; it
    renders every [int] in plain decimal form; it renders a [float64] as
    [%v] does, which is plain decimal form without trailing zeros exactly
    for the zeros and for the finite values whose shortest digits [d.ddd]
    come with a power of ten [X] with [-4 <= X < 6], and exponent form
    ([1e+06]), [NaN], [+Inf] or [-Inf] for all other values. *)
Theorem argToString_text_form {Other : Type} `{!GoFmt Other} (v : any Other) :
  match v with
  | AString val => argToString v = val
  | ABool val => argToString v = if val then "true" else "false"
  | AInt val =>
      argToString v = pretty val ∧ plainDecimal (argToString v) = true
  | AFloat64 val =>
      argToString v = FormatFloat val ∧
      (plainDecimal (argToString v) = true ↔ plainRange val)
  | AOther val => argToString v = Sprintf_v val
  end.
Proof.
  destruct v as [val|val|val|val|val]; simpl; [done| | |by destruct val|done].
  - split; [done|]. apply plainDecimal_FormatFloat.
  - split; [done|]. apply plainDecimal_Sprintf_d.
Qed.

(** * Further properties of the engine *)

Section more_properties.
Context {Regexp Other : Type}.
Context `{GoStrings} `{!GoRegexp Regexp} `{!GoYaml Regexp} `{!GoFmt Other}.
Implicit Types (o : RangeOrder) (e : Engine Regexp) (rule : ToolRule Regexp).
Implicit Types (doc : AgentPolicy Regexp) (args : gmap string (any Other)).
Implicit Types (allowed : gset string) (byName : gmap string (ToolRule Regexp)).

(** ** A successful [Load] does not depend on the order of iteration *)

(** The matchers compiled for a rule do not depend on the order in which its
    patterns are visited. *)
Lemma compileArgs_order_irrelevant o1 o2 tool (patterns : gmap string string) compiled :
  compileArgs tool (range o1 patterns) ∅ = inr compiled →
  compileArgs tool (range o2 patterns) ∅ = inr compiled.
Proof.
  intros H1.
  destruct (compileArgs_inr _ _ _ _ H1 (NoDup_fst_range o1 _)) as [Hin1 Hout1].
  destruct (compileArgs_total tool (range o2 patterns) ∅) as [compiled2 H2].
  { intros k p Hkp%elem_of_range. destruct (Hin1 k p) as (re & Hre & _); [|by eauto].
    by apply elem_of_range. }
  rewrite H2. f_equal.
  destruct (compileArgs_inr _ _ _ _ H2 (NoDup_fst_range o2 _)) as [Hin2 Hout2].
  apply map_eq. intros k. destruct (patterns !! k) as [p|] eqn:Hp.
  - destruct (Hin1 k p) as (re1 & Hre1 & ->); [by apply elem_of_range|].
    destruct (Hin2 k p) as (re2 & Hre2 & ->); [by apply elem_of_range|].
    congruence.
  - rewrite Hout1, Hout2; [done| |].
    + intros ([k' p] & -> & Hkp%elem_of_range)%list_elem_of_fmap. simpl in *. congruence.
    + intros ([k' p] & -> & Hkp%elem_of_range)%list_elem_of_fmap. simpl in *. congruence.
Qed.

Lemma compileToolRules_order_irrelevant o1 o2 rules finished allowed byName rules' :
  loopResult (compileToolRules o1 rules finished allowed byName) = inr rules' →
  compileToolRules o2 rules finished allowed byName =
  compileToolRules o1 rules finished allowed byName.
Proof.
  revert finished allowed byName.
  induction rules as [|r rules IH]; intros finished allowed byName; simpl; [done|].
  destruct (compileArgs (Tool r) (range o1 _) ∅) as [err|compiled] eqn:Hc; [done|].
  rewrite (compileArgs_order_irrelevant o1 o2 _ _ _ Hc). apply IH.
Qed.

(** Property X1.  A successful [Load] builds the engine from the document alone: the
    same document gives the same engine whatever engine it is loaded into
    and in whatever order the maps are iterated.  So nothing of the previous
    policy survives a successful reload, and loading a document twice gives
    the engine of loading it once. *)
Theorem Load_replaces_engine o1 o2 e1 e2 data e' :
  Load o1 e1 data = (e', None) → Load o2 e2 data = (e', None).
Proof.
  unfold Load. destruct (Unmarshal data) as [msg|doc]; [done|].
  repeat case_bool_decide; try done.
  destruct (loopResult (compileToolRules o1 _ _ _ _)) as [err|rules'] eqn:Hloop; [done|].
  rewrite (compileToolRules_order_irrelevant o1 o2 _ _ _ _ _ Hloop), Hloop.
  by intros [= <-].
Qed.

Lemma compileArgs_fails_in_any_order o1 o2 tool (patterns : gmap string string) err :
  compileArgs tool (range o1 patterns) ∅ = inl err →
  ∃ A1 msg1 A2 msg2,
    err = ErrInvalidRegex tool A1 msg1 ∧
    compileArgs tool (range o2 patterns) ∅ = inl (ErrInvalidRegex tool A2 msg2).
Proof.
  intros H1.
  destruct (compileArgs_inl _ _ _ _ H1) as (A1 & p1 & msg1 & _ & _ & ->).
  exists A1, msg1.
  destruct (compileArgs tool (range o2 patterns) ∅) as [err2|compiled] eqn:H2.
  - destruct (compileArgs_inl _ _ _ _ H2) as (A2 & p2 & msg2 & _ & _ & ->). by eauto.
  - apply (compileArgs_order_irrelevant o2 o1) in H2. congruence.
Qed.

Lemma compileToolRules_fails_in_any_order o1 o2 rules finished allowed byName err :
  let loop1 := compileToolRules o1 rules finished allowed byName in
  let loop2 := compileToolRules o2 rules finished allowed byName in
  loopResult loop1 = inl err →
  loopAllowed loop2 = loopAllowed loop1 ∧ loopRules loop2 = loopRules loop1 ∧
  ∃ err2, loopResult loop2 = inl err2 ∧ sameFailure (Some err) (Some err2).
Proof.
  revert finished allowed byName.
  induction rules as [|r rules IH]; intros finished allowed byName; simpl; [done|].
  destruct (compileArgs (Tool r) (range o1 _) ∅) as [err1|compiled] eqn:Hc; simpl.
  - intros [= ->].
    destruct (compileArgs_fails_in_any_order o1 o2 _ _ _ Hc)
      as (A1 & msg1 & A2 & msg2 & -> & ->).
    simpl. split_and!; [done..|]. by eexists.
  - rewrite (compileArgs_order_irrelevant o1 o2 _ _ _ Hc). apply IH.
Qed.

(** Property X11.  The order in which Go iterates the maps shows in one place
    only: two calls of [Load] with the same document on the same engine
    leave the same engine, and fail or succeed together; their errors are
    the same, except that for a rule with several patterns that do not
    compile the error may name another argument of that rule. *)
Theorem Load_order_only_in_error o1 o2 e data :
  (Load o1 e data).1 = (Load o2 e data).1 ∧
  sameFailure (Load o1 e data).2 (Load o2 e data).2.
Proof.
  unfold Load. destruct (Unmarshal data) as [msg|doc]; [done|].
  repeat case_bool_decide; try done.
  destruct (loopResult (compileToolRules o1 _ _ _ _)) as [err|rules'] eqn:Hloop.
  - destruct (compileToolRules_fails_in_any_order o1 o2 _ _ _ _ _ Hloop)
      as (-> & -> & err2 & -> & Hsame).
    done.
  - by rewrite (compileToolRules_order_irrelevant o1 o2 _ _ _ _ _ Hloop), Hloop.
Qed.


(** ** Several rules for one tool *)

(** Rules for other tools leave the entry of a tool in the rule map as it
    is. *)
Lemma compileToolRules_lookup_other o rules finished allowed byName name :
  (∀ r, r ∈ rules → normalize (Tool r) ≠ name) →
  loopRules (compileToolRules o rules finished allowed byName) !! name =
  byName !! name.
Proof.
  revert finished allowed byName.
  induction rules as [|r rules IH]; intros finished allowed byName Hother; simpl;
    [done|].
  destruct (compileArgs _ _ _) as [err|compiled]; simpl; [done|].
  rewrite IH.
  - apply lookup_insert_ne, Hother. by left.
  - intros r' Hin. apply Hother. by right.
Qed.

Lemma compileToolRules_last o pre r post finished allowed byName rules' :
  loopResult (compileToolRules o (pre ++ r :: post) finished allowed byName)
    = inr rules' →
  (∀ r', r' ∈ post → normalize (Tool r') ≠ normalize (Tool r)) →
  ∃ compiled,
    compileArgs (Tool r) (range o (AllowArgs r)) ∅ = inr compiled ∧
    loopRules (compileToolRules o (pre ++ r :: post) finished allowed byName)
      !! normalize (Tool r) =
    Some {| Tool := Tool r; AllowArgs := AllowArgs r; compiledArgs := compiled |}.
Proof.
  revert finished allowed byName.
  induction pre as [|r0 pre IH]; intros finished allowed byName; simpl.
  - destruct (compileArgs (Tool r) _ ∅) as [err|compiled] eqn:Hc; [done|].
    intros _ Hpost. exists compiled. split; [done|].
    rewrite compileToolRules_lookup_other by done. apply lookup_insert_eq.
  - destruct (compileArgs (Tool r0) _ ∅) as [err|compiled0]; [done|]. apply IH.
Qed.

(** For a tool with a rule in a loaded engine, the verdict is that of the
    declared patterns of the stored rule, with or without patterns. *)
Lemma IsAllowed_verdict e o tool rule args :
  loadedBy e → toolRules e !! normalize tool = Some rule →
  Allowed (IsAllowed o e tool args) = true ↔
  ∀ A P, AllowArgs rule !! A = Some P → satisfies args A P.
Proof.
  intros Hloaded Hrule.
  destruct (decide (AllowArgs rule = ∅)) as [Hempty|Hnonempty].
  - destruct (loadedBy_rule _ _ _ Hloaded Hrule) as [Hin Hc].
    rewrite IsAllowed_inside, Hrule by done.
    apply (compiledFrom_empty _ Hc) in Hempty as Hcompiled.
    rewrite Hcompiled, map_size_empty, bool_decide_eq_true_2 by done.
    split; [|done]. intros _ A P. by rewrite Hempty, lookup_empty.
  - destruct (IsAllowed_constrained e o tool rule args Hloaded Hrule Hnonempty)
      as [[-> Hall]|(A0 & P0 & HP0 & Hv0 & ->)]; simpl; [done|].
    split; [done|]. intros Hall. by apply Hall, satisfies_not_violates in HP0.
Qed.

(** Property X2.  When a document has several rules for tool names with one
    normal form, the last of them is the rule of the engine: after a
    successful [Load] the rule map holds, under that normal form, the
    declared tool and patterns of the last such rule, compiled, and
    [IsAllowed] allows a call of the tool exactly when the arguments satisfy
    the patterns of that last rule.  The patterns of the earlier rules are
    not consulted. *)
Theorem last_rule_wins o e data e' doc pre r post :
  Load o e data = (e', None) →
  Unmarshal data = inr doc →
  ToolRules (Spec doc) = pre ++ r :: post →
  (∀ r', r' ∈ post → normalize (Tool r') ≠ normalize (Tool r)) →
  (∃ rule,
     toolRules e' !! normalize (Tool r) = Some rule ∧
     Tool rule = Tool r ∧ AllowArgs rule = AllowArgs r ∧ compiledFrom rule) ∧
  ∀ o' tool args,
    normalize tool = normalize (Tool r) →
    Allowed (IsAllowed o' e' tool args) = true ↔
    ∀ A P, AllowArgs r !! A = Some P → satisfies args A P.
Proof.
  intros Hload Hdoc Hrules Hpost.
  assert (∃ rule,
     toolRules e' !! normalize (Tool r) = Some rule ∧
     Tool rule = Tool r ∧ AllowArgs rule = AllowArgs r ∧ compiledFrom rule)
    as (rule & Hrule & Htool & Hargs & Hc).
  { revert Hload. unfold Load. rewrite Hdoc.
    repeat case_bool_decide; try done.
    destruct (loopResult _) as [err|rules'] eqn:Hloop; [done|].
    intros [= <-]. simpl. rewrite Hrules in Hloop |- *.
    destruct (compileToolRules_last _ _ _ _ _ _ _ _ Hloop Hpost)
      as (compiled & Hcompiled & ->).
    eexists. split; [done|]. split_and!; [done..|].
    by apply (compileArgs_compiledFrom o). }
  split; [by exists rule|].
  intros o' tool args Hsame. rewrite <-Hargs.
  apply IsAllowed_verdict; [by exists o, e, data|by rewrite Hsame].
Qed.

(** ** The first rule with a bad pattern *)

Lemma compileToolRules_first_bad o pre bad post finished allowed byName :
  (∀ r A P, r ∈ pre → AllowArgs r !! A = Some P → ∃ re, Compile P = inr re) →
  (∃ A P msg, AllowArgs bad !! A = Some P ∧ Compile P = inl msg) →
  let loop := compileToolRules o (pre ++ bad :: post) finished allowed byName in
  (∃ A P msg,
     AllowArgs bad !! A = Some P ∧ Compile P = inl msg ∧
     loopResult loop = inl (ErrInvalidRegex (Tool bad) A msg)) ∧
  loopAllowed loop = ruledTools pre ∪ allowed ∧
  dom (loopRules loop) = ruledTools pre ∪ dom byName.
Proof.
  intros Hpre (A & P & msg & HP & Hmsg).
  revert finished allowed byName.
  induction pre as [|r pre IH]; intros finished allowed byName; simpl.
  - destruct (compileArgs (Tool bad) _ ∅) as [err|compiled] eqn:Hc; simpl.
    + apply compileArgs_inl in Hc as (k & p & msg' & Hk%elem_of_range & Hp & ->).
      split; [by exists k, p, msg'|]. unfold ruledTools. simpl. set_solver.
    + destruct (compileArgs_inr _ _ _ _ Hc (NoDup_fst_range o _)) as [Hall _].
      destruct (Hall A P) as (re & Hre & _); [by apply elem_of_range|]. congruence.
  - destruct (compileArgs_total (Tool r) (range o (AllowArgs r)) ∅) as [compiled ->].
    { intros k p Hk%elem_of_range. apply (Hpre r k p); [left|done]. }
    destruct (IH (λ r' A' P' Hin, Hpre r' A' P' (list_elem_of_further _ _ _ Hin))
                (finished ++ [{| Tool := Tool r; AllowArgs := AllowArgs r;
                                 compiledArgs := compiled |}])
                ({[normalize (Tool r)]} ∪ allowed)
                (<[normalize (Tool r) :=
                     {| Tool := Tool r; AllowArgs := AllowArgs r;
                        compiledArgs := compiled |}]> byName))
      as (Herr & Hallowed & Hdom).
    split; [done|]. rewrite Hallowed, Hdom, dom_insert_L.
    unfold ruledTools. simpl. set_solver.
Qed.

(** A rule with a pattern that does not compile stops the loop over its
    patterns, in whatever order they are visited. *)
Lemma compileArgs_bad o (bad : ToolRule Regexp) :
  (∃ A P msg, AllowArgs bad !! A = Some P ∧ Compile P = inl msg) →
  ∃ err, compileArgs (Tool bad) (range o (AllowArgs bad)) ∅ = inl err.
Proof.
  intros (A & P & msg & HP & Hmsg).
  destruct (compileArgs (Tool bad) _ ∅) as [err|compiled] eqn:Hc; [by eexists|].
  destruct (compileArgs_inr _ _ _ _ Hc (NoDup_fst_range o _)) as [Hall _].
  destruct (Hall A P) as (re & Hre & _); [by apply elem_of_range|]. congruence.
Qed.

(** When the loop stops at a rule, the rule map is the one the loop over the
    rules before it has built. *)
Lemma compileToolRules_stops o pre bad post finished allowed byName rules' err :
  loopResult (compileToolRules o pre finished allowed byName) = inr rules' →
  compileArgs (Tool bad) (range o (AllowArgs bad)) ∅ = inl err →
  loopRules (compileToolRules o (pre ++ bad :: post) finished allowed byName) =
  loopRules (compileToolRules o pre finished allowed byName).
Proof.
  intros Hpre Hbad. revert finished allowed byName Hpre.
  induction pre as [|r pre IH]; intros finished allowed byName; simpl.
  - by rewrite Hbad.
  - destruct (compileArgs (Tool r) _ ∅) as [err'|compiled]; [done|]. apply IH.
Qed.

(** Property X3.  [Load] compiles the rules in the order of the document and
    stops at the first rule that has a pattern that does not compile: the
    error names the tool of that rule and one of its arguments whose pattern
    does not compile.  At that point the engine holds the allow-list of the
    document together with the tools of the rules before that rule, and
    exactly those rules: the keys of the rule map are their tools, and under
    the tool of each of them the map holds the last rule for that tool among
    them, with its declared tool and patterns and the matchers of these
    patterns.  The policy of the engine is the one it had. *)
Theorem Load_stops_at_first_bad_rule o e data doc pre bad post :
  Unmarshal data = inr doc →
  validDocument doc →
  ToolRules (Spec doc) = pre ++ bad :: post →
  (∀ r A P, r ∈ pre → AllowArgs r !! A = Some P → ∃ re, Compile P = inr re) →
  (∃ A P msg, AllowArgs bad !! A = Some P ∧ Compile P = inl msg) →
  let result := Load o e data in
  (∃ A P msg,
     AllowArgs bad !! A = Some P ∧ Compile P = inl msg ∧
     result.2 = Some (ErrInvalidRegex (Tool bad) A msg)) ∧
  allowedSet result.1 = Some (ruledTools pre ∪ listedTools doc) ∧
  dom (toolRules result.1) = ruledTools pre ∧
  (∀ before r after,
     pre = before ++ r :: after →
     (∀ r', r' ∈ after → normalize (Tool r') ≠ normalize (Tool r)) →
     ∃ rule,
       toolRules result.1 !! normalize (Tool r) = Some rule ∧
       Tool rule = Tool r ∧ AllowArgs rule = AllowArgs r ∧ compiledFrom rule) ∧
  policy result.1 = policy e.
Proof.
  intros Hdoc [Hver Hkind] Hrules Hpre Hbad. unfold Load. rewrite Hdoc.
  rewrite bool_decide_eq_false_2 by done.
  rewrite bool_decide_eq_false_2 by (by intros []).
  rewrite Hrules.
  destruct (compileToolRules_first_bad o pre bad post []
              (addAllowedTools (AllowedTools (Spec doc)) ∅) ∅ Hpre Hbad)
    as ((A & P & msg & HP & Hmsg & Herr) & Hallowed & Hdom).
  rewrite Herr. simpl. split_and!.
  - by exists A, P, msg.
  - rewrite Hallowed, addAllowedTools_spec. unfold listedTools. f_equal. set_solver.
  - rewrite Hdom, dom_empty_L. set_solver.
  - intros before r after -> Hafter.
    destruct (compileArgs_bad o bad Hbad) as [err Hstop].
    destruct (compileToolRules_total o (before ++ r :: after) []
                (addAllowedTools (AllowedTools (Spec doc)) ∅) ∅) as [rules' Hloop].
    { intros r0 k p Hin Hk. by apply (Hpre r0 k p). }
    rewrite (compileToolRules_stops _ _ _ _ _ _ _ _ _ Hloop Hstop).
    destruct (compileToolRules_last _ _ _ _ _ _ _ _ Hloop Hafter)
      as (compiled & Hcompiled & ->).
    eexists. split; [done|]. split_and!; [done..|].
    by apply (compileArgs_compiledFrom o).
  - done.
Qed.


(** ** Loads that are rejected before compilation *)

(** Property X4.  A call of [Load] with a document that does not parse or
    fails validation leaves the engine exactly as it was, and so does any
    sequence of such calls.  In particular an engine that has seen nothing
    but such calls since [NewEngine] denies every call. *)
Theorem rejected_loads_change_nothing calls e :
  Forall (λ call, rejectedEarly call.2) calls →
  loadAll calls e = e ∧
  ∀ o tool args,
    IsAllowed o (loadAll calls NewEngine) tool args =
      {| Allowed := false; FailedArg := ""; FailedRule := "" |}.
Proof.
  intros Hcalls.
  assert (∀ e0, loadAll calls e0 = e0) as Hsame.
  { induction Hcalls as [|[o data] calls Hcall _ IH]; intros e0; [done|].
    unfold loadAll in *. simpl.
    destruct (Load_rejected_unchanged o e0 data Hcall) as [-> _]. apply IH. }
  split; [done|]. intros o tool args. rewrite Hsame. apply NewEngine_denies.
Qed.

(** ** What of the document [Load] uses *)

(** Property X5.  [Load] reads the allow-list and the rules of a valid
    document and nothing else: two valid documents with the same
    [allowed_tools] and [tool_rules] give engines with the same allowed set
    and the same rule map, the same error if any, and the same answers of
    [IsAllowed], whatever their schema version, metadata and [denied_tools]
    are.  A deny-list is not enforced. *)
Theorem Load_ignores_denied_tools o e1 e2 data1 data2 doc1 doc2 :
  Unmarshal data1 = inr doc1 →
  Unmarshal data2 = inr doc2 →
  validDocument doc1 →
  validDocument doc2 →
  AllowedTools (Spec doc1) = AllowedTools (Spec doc2) →
  ToolRules (Spec doc1) = ToolRules (Spec doc2) →
  let result1 := Load o e1 data1 in
  let result2 := Load o e2 data2 in
  allowedSet result1.1 = allowedSet result2.1 ∧
  toolRules result1.1 = toolRules result2.1 ∧
  result1.2 = result2.2 ∧
  ∀ o' tool args,
    IsAllowed o' result1.1 tool args = IsAllowed o' result2.1 tool args.
Proof.
  intros Hdoc1 Hdoc2 [Hver1 Hkind1] [Hver2 Hkind2] Htools Hrules.
  assert (allowedSet (Load o e1 data1).1 = allowedSet (Load o e2 data2).1 ∧
          toolRules (Load o e1 data1).1 = toolRules (Load o e2 data2).1 ∧
          (Load o e1 data1).2 = (Load o e2 data2).2) as (Hallowed & Hmap & Herr).
  { unfold Load. rewrite Hdoc1, Hdoc2.
    rewrite !(bool_decide_eq_false_2 (_ = "")) by done.
    rewrite !(bool_decide_eq_false_2 (_ ≠ "AgentPolicy")) by (by intros []).
    rewrite Htools, Hrules. by destruct (loopResult _). }
  simpl. split_and!; [done..|].
  intros o' tool args. unfold IsAllowed. by rewrite Hallowed, Hmap.
Qed.

(** ** The accessors *)

(** What [Load] does to the policy of the engine: a failure leaves it, a
    success stores the document with its rules compiled. *)
Lemma Load_policy o e data :
  match (Load o e data).2 with
  | Some _ => policy (Load o e data).1 = policy e
  | None =>
      ∃ doc stored,
        Unmarshal data = inr doc ∧ policy (Load o e data).1 = Some stored ∧
        Metadata stored = Metadata doc ∧
        AllowedTools (Spec stored) = AllowedTools (Spec doc)
  end.
Proof.
  unfold Load. destruct (Unmarshal data) as [msg|doc]; [done|].
  repeat case_bool_decide; try done.
  destruct (loopResult _) as [err|rules']; simpl; [done|].
  by eexists _, _.
Qed.

(** Property X6.  [GetPolicyName] is the name of the last document that was
    loaded with success: a successful [Load] makes it the name in the
    metadata of the document, a failed [Load] of any kind leaves it as it
    was, and it is [<no policy>] on a new engine. *)
Theorem GetPolicyName_follows_loads o e data :
  GetPolicyName (NewEngine : Engine Regexp) = "<no policy>" ∧
  match (Load o e data).2 with
  | Some _ => GetPolicyName (Load o e data).1 = GetPolicyName e
  | None =>
      ∃ doc, Unmarshal data = inr doc ∧
        GetPolicyName (Load o e data).1 = Name (Metadata doc)
  end.
Proof.
  split; [done|]. pose proof (Load_policy o e data) as Hpolicy.
  unfold GetPolicyName. destruct ((Load o e data).2).
  - by rewrite Hpolicy.
  - destruct Hpolicy as (doc & stored & Hdoc & -> & -> & _). by exists doc.
Qed.

(** Property X7.  After a successful [Load], [GetAllowedTools] returns the
    allow-list of the document as it is written there (not normalized, and
    without the tools that are allowed through a rule only), and every tool
    on it passes the tool-level check of [IsAllowed].  A failed [Load]
    leaves the list as it was; on a new engine there is none. *)
Theorem GetAllowedTools_follows_loads o e data :
  GetAllowedTools (NewEngine : Engine Regexp) = None ∧
  match (Load o e data).2 with
  | Some _ => GetAllowedTools (Load o e data).1 = GetAllowedTools e
  | None =>
      ∃ doc, Unmarshal data = inr doc ∧
        GetAllowedTools (Load o e data).1 = Some (AllowedTools (Spec doc)) ∧
        ∀ tool, tool ∈ AllowedTools (Spec doc) →
          normalize tool ∈ allowedTools (Load o e data).1
  end.
Proof.
  split; [done|]. pose proof (Load_policy o e data) as Hpolicy.
  unfold GetAllowedTools. destruct ((Load o e data).2) eqn:Herr.
  - by rewrite Hpolicy.
  - destruct Hpolicy as (doc & stored & Hdoc & -> & _ & ->). exists doc.
    split_and!; [done..|]. intros tool Hin.
    destruct (Load_success o e data (Load o e data).1)
      as (doc' & Hdoc' & _ & Hallowed & _).
    { rewrite <-Herr. by destruct (Load o e data). }
    assert (doc' = doc) as -> by congruence.
    unfold allowedTools. rewrite Hallowed. simpl.
    apply elem_of_union_r, elem_of_list_to_set, list_elem_of_fmap. by exists tool.
Qed.

(** ** The shape of a result *)

(** Property X8.  Whatever the engine holds, a result of [IsAllowed] that
    allows carries no argument and no pattern; a result that denies either
    carries none, and then the tool is outside the allowed set or the
    failed argument has the empty name, or it names an argument that has a
    matcher in the rule of the tool and does not pass it, with the pattern
    the rule declares under that name (none gives the empty text). *)
Theorem IsAllowed_result_shape e o tool args :
  let result := IsAllowed o e tool args in
  (Allowed result = true → FailedArg result = "" ∧ FailedRule result = "") ∧
  (Allowed result = false →
     (normalize tool ∉ allowedTools e) ∧ FailedArg result = "" ∧
       FailedRule result = "" ∨
     ∃ rule re,
       normalize tool ∈ allowedTools e ∧
       toolRules e !! normalize tool = Some rule ∧
       compiledArgs rule !! FailedArg result = Some re ∧
       argOK args (FailedArg result) re = false ∧
       FailedRule result = default "" (AllowArgs rule !! FailedArg result)).
Proof.
  intros result. subst result.
  destruct (decide (normalize tool ∈ allowedTools e)) as [Hin|Hout].
  - rewrite IsAllowed_inside by done.
    destruct (toolRules e !! normalize tool) as [rule|] eqn:Hrule; [|done].
    case_bool_decide; [done|].
    destruct (validateArgs_spec rule args (range o (compiledArgs rule)))
      as [[-> _]|(k & re & Hentry%elem_of_range & Hfail & ->)]; simpl; [done|].
    split; [done|]. intros _. right. by exists rule, re.
  - rewrite IsAllowed_outside by done. simpl. split; [done|]. intros _. by left.
Qed.

(** ** Arguments are seen through their text *)

Lemma validateArgs_text rule args1 args2 entries :
  argToString <$> args1 = argToString <$> args2 →
  validateArgs rule args1 entries = validateArgs rule args2 entries.
Proof.
  intros Htext. induction entries as [|[k re] entries IH]; simpl; [done|].
  assert (argToString <$> args1 !! k = argToString <$> args2 !! k) as Hk
    by (by rewrite <-!lookup_fmap, Htext).
  destruct (args1 !! k) as [v1|], (args2 !! k) as [v2|]; simplify_eq/=; [|done].
  by rewrite Hk, IH.
Qed.

(** Property X9.  [IsAllowed] reads the argument values through their text
    form only: two argument maps with the same names and, name by name, the
    same text forms get the same result.  The engine cannot tell the number
    [100] or the boolean [true] from the texts [100] and [true]. *)
Theorem arguments_seen_as_text e o tool args1 args2 :
  argToString <$> args1 = argToString <$> args2 →
  IsAllowed o e tool args1 = IsAllowed o e tool args2.
Proof.
  intros Htext. unfold IsAllowed.
  destruct (allowedSet e) as [allowed|]; [|done].
  case_bool_decide; [done|].
  destruct (toolRules e !! normalize tool) as [rule|]; [|done].
  case_bool_decide; [done|]. by apply validateArgs_text.
Qed.

(** ** Loading from a file *)

(** Property X10.  [LoadFromFile] succeeds exactly when the file can be read
    and [Load] accepts its contents, and then leaves the engine [Load]
    leaves.  When the file cannot be read the engine is left as it was and
    the error names the path, quoted, with the message of [os.ReadFile];
    when its contents are rejected before compilation the engine is left as
    it was, too. *)
Theorem LoadFromFile_outcomes `{!GoOs} o e path :
  let result := LoadFromFile o e path in
  (result.2 = None ↔
     ∃ data, ReadFile path = inr data ∧ Load o e data = (result.1, None)) ∧
  (∀ msg, ReadFile path = inl msg →
     result.1 = e ∧
     fileErrorText <$> result.2 =
       Some ("failed to read policy file " +:+ Sprintf_q path +:+ ": " +:+ msg)) ∧
  (∀ data, ReadFile path = inr data → rejectedEarly data →
     result.1 = e ∧ fileErrorText <$> result.2 = errorText <$> (Load o e data).2 ∧
     result.2 ≠ None).
Proof.
  unfold LoadFromFile. destruct (ReadFile path) as [msg|data] eqn:Hread; simpl.
  - split_and!; [|by intros ? [= <-]|done].
    split; [done|]. by intros (data & [=] & _).
  - split_and!; [|done|].
    + destruct (Load o e data) as [e' [err|]] eqn:Hload; simpl.
      * split; [done|]. intros (data' & [= <-] & Hnone). by rewrite Hload in Hnone.
      * split; [|done]. intros _. by exists data.
    + intros data' [= <-] Hrejected.
      destruct (Load_rejected_unchanged o e data Hrejected) as [He Herr].
      rewrite He. split_and!; [done| |].
      * by destruct ((Load o e data).2).
      * by destruct ((Load o e data).2).
Qed.

End more_properties.

(** * The engine on the reference implementations *)

(** Closes a goal by evaluating both sides. *)
Ltac evaluate :=
  vm_compute; repeat apply conj; first [reflexivity | exact I | discriminate].

(** Closes a decidable goal by evaluating its decision procedure. *)
Ltac decided := eapply (@bool_decide_unpack _ _); vm_compute; exact I.

(** ** ASCII tool names

    On ASCII text, normalizing twice is normalizing once. *)

Lemma is_space_lowerChar c : Ascii.is_space (lowerChar c) = Ascii.is_space c.
Proof. by destruct c as [[] [] [] [] [] [] [] []]. Qed.

Lemma lowerChar_idem c : lowerChar (lowerChar c) = lowerChar c.
Proof. by destruct c as [[] [] [] [] [] [] [] []]. Qed.

Lemma asciiToLower_idem s : asciiToLower (asciiToLower s) = asciiToLower s.
Proof. induction s as [|c s IH]; simpl; [done|]. by rewrite lowerChar_idem, IH. Qed.

Lemma trimLeft_asciiToLower s : trimLeft (asciiToLower s) = asciiToLower (trimLeft s).
Proof.
  induction s as [|c s IH]; simpl; [done|].
  rewrite is_space_lowerChar. by destruct (Ascii.is_space c).
Qed.

Lemma trimRight_asciiToLower s : trimRight (asciiToLower s) = asciiToLower (trimRight s).
Proof.
  induction s as [|c s IH]; simpl; [done|]. rewrite IH.
  destruct (trimRight s); simpl; [|done].
  rewrite is_space_lowerChar. by destruct (Ascii.is_space c).
Qed.

Lemma trimRight_idem s : trimRight (trimRight s) = trimRight s.
Proof.
  induction s as [|c s IH]; simpl; [done|].
  destruct (trimRight s) as [|c' r] eqn:Hr.
  - destruct (Ascii.is_space c) eqn:Hc; simpl; [done|]. by rewrite Hc.
  - change (trimRight (String c (String c' r))) with
      (match trimRight (String c' r) with
       | EmptyString =>
           if Ascii.is_space c then EmptyString else String c EmptyString
       | rest => String c rest
       end).
    by rewrite IH.
Qed.

(** A trimmed string does not start with white space, and trimming it on the
    right keeps that. *)
Lemma trimLeft_startsClean s : startsClean (trimLeft s).
Proof.
  induction s as [|c s IH]; simpl; [done|].
  by destruct (Ascii.is_space c) eqn:Hc; simpl.
Qed.

Lemma trimRight_startsClean s : startsClean s → startsClean (trimRight s).
Proof.
  destruct s as [|c s]; simpl; [done|]. intros Hc.
  destruct (trimRight s); [by rewrite Hc|done].
Qed.

Lemma trimLeft_clean s : startsClean s → trimLeft s = s.
Proof. destruct s as [|c s]; simpl; [done|]. by intros ->. Qed.

Lemma asciiTrimSpace_idem s : asciiTrimSpace (asciiTrimSpace s) = asciiTrimSpace s.
Proof.
  unfold asciiTrimSpace.
  rewrite (trimLeft_clean (trimRight (trimLeft s))).
  - apply trimRight_idem.
  - apply trimRight_startsClean, trimLeft_startsClean.
Qed.

Lemma asciiNormalize_idem (tool : string) : normalize (normalize tool) = normalize tool.
Proof.
  unfold normalize. simpl. unfold asciiTrimSpace.
  rewrite trimLeft_asciiToLower, trimRight_asciiToLower, asciiToLower_idem.
  f_equal. apply asciiTrimSpace_idem.
Qed.

(** On the reference implementation the normal form of every name gets the
    answer of the name. *)
Corollary IsAllowed_normalize_ascii (e : Engine TestPattern) o tool
    (args : gmap string (any unit)) :
  IsAllowed o e (normalize tool) args = IsAllowed o e tool args.
Proof. apply IsAllowed_normalize_eq, asciiNormalize_idem. Qed.






(** The reference implementation is what package [strings] does on ASCII
    text. *)
#[export] Instance asciiStrings_ASCII : GoStringsASCII.
Proof. by split. Qed.

Section tool_names.
Context {Regexp Other : Type}.
Context `{GoStrings} `{!GoRegexp Regexp} `{!GoYaml Regexp} `{!GoFmt Other}.
Context `{!GoStringsASCII}.
Implicit Types (o : RangeOrder) (e : Engine Regexp) (args : gmap string (any Other)).




End tool_names.

(** ** The scenarios of engine_test.go *)

Example TestGeminiJackDefense :
  let engine := loaded geminiJackYAML in
  IsAllowed keyOrder engine "fetch_url" (text [("url", "https://github.com/my-repo")])
    = allow ∧
  IsAllowed keyOrder engine "fetch_url" (text [("url", "https://attacker.com/steal")])
    = deny "url" "^https://github\.com/.*" ∧
  IsAllowed keyOrder engine "fetch_url" (text [("url", "http://github.com/my-repo")])
    = deny "url" "^https://github\.com/.*" ∧
  IsAllowed keyOrder engine "fetch_url"
    (text [("url", "https://github.com.evil.com/my-repo")])
    = deny "url" "^https://github\.com/.*" ∧
  IsAllowed keyOrder engine "fetch_url" ∅ = deny "url" "^https://github\.com/.*".
Proof. evaluate. Qed.

Example TestToolLevelDeny :
  let engine := loaded toolLevelYAML in
  Allowed (IsAllowed keyOrder engine "safe_tool" ∅) = true ∧
  Allowed (IsAllowed keyOrder engine "SAFE_TOOL" ∅) = true ∧
  Allowed (IsAllowed keyOrder engine "dangerous_tool" ∅) = false.
Proof. evaluate. Qed.

Example TestMultipleArgConstraints :
  let engine := loaded multiArgYAML in
  IsAllowed keyOrder engine "run_query"
    (text [("database", "prod"); ("query", "SELECT * FROM users")]) = allow ∧
  IsAllowed keyOrder engine "run_query"
    (text [("database", "prod"); ("query", "DROP TABLE users")])
    = deny "query" "^SELECT\s+.*" ∧
  IsAllowed keyOrder engine "run_query"
    (text [("database", "master"); ("query", "SELECT * FROM users")])
    = deny "database" "^(prod|staging)$".
Proof. evaluate. Qed.

Example TestInvalidRegexReturnsError :
  errorText <$> (Load keyOrder NewEngine (bytes invalidRegexYAML)).2 =
  Some ("invalid regex for tool " +:+ quote "bad_tool" +:+ " arg " +:+
        quote "pattern" +:+
        ": error parsing regexp: missing closing ]: `[invalid(regex`").
Proof. evaluate. Qed.

Example TestArgToString :
  argToString (AString "hello") = "hello" ∧
  argToString (AFloat64 42) = "42" ∧
  argToString (AFloat64 0x1.91eb851eb851fp+1) = "3.14" ∧
  argToString (ABool true) = "true" ∧
  argToString (ABool false) = "false" ∧
  argToString (AInt 100) = "100".
Proof. evaluate. Qed.

Example TestToolRulesImplicitlyAllowTool :
  IsAllowed keyOrder (loaded implicitAllowYAML) "fetch_url"
    (text [("url", "https://example.com")]) = allow.
Proof. evaluate. Qed.

(** ** A pattern that does not compile *)

Lemma loaded_toolLevel : loadedBy (loaded toolLevelYAML).
Proof. exists keyOrder, NewEngine, (bytes toolLevelYAML). evaluate. Qed.

Lemma brokenReload_rejected o (e : Engine TestPattern) :
  let e' := (Load o e (bytes brokenReloadYAML)).1 in
  (Load o e (bytes brokenReloadYAML)).2 ≠ None ∧
  policy e' = policy e ∧
  (∀ tool, normalize tool ∈ allowedTools e' →
     normalize tool ∈ ({["fetch_url"; "bad_tool"; "delete_repo"]} : gset string)) ∧
  ∀ o' args, IsAllowed o' e' "delete_repo" args = allow.
Proof.
  destruct (Load_bad_pattern o e (bytes brokenReloadYAML) brokenReloadPolicy)
    as (Herr & Hpolicy & Hlisted & Hbound & Hrules).
  - evaluate.
  - split; evaluate.
  - exists (testRule "bad_tool" [("pattern", "[invalid(regex")]), "pattern",
      "[invalid(regex", "error parsing regexp: missing closing ]: `[invalid(regex`".
    split_and!; [|evaluate..].
    unfold brokenReloadPolicy, testPolicy. cbn [Spec ToolRules].
    apply elem_of_cons. right. apply elem_of_cons. by left.
  - simpl. split_and!; [done..| |].
    + intros tool Hin%Hbound. revert Hin. generalize (normalize tool). intros name.
      assert (ruledTools (ToolRules (Spec brokenReloadPolicy)) ∪
              listedTools brokenReloadPolicy =
              ({["fetch_url"; "bad_tool"; "delete_repo"]} : gset string)) as ->;
        [|done].
      decided.
    + intros o' args. rewrite IsAllowed_inside.
      * assert (toolRules (Load o e (bytes brokenReloadYAML)).1 !! "delete_repo" = None)
          as Hnone.
        { apply not_elem_of_dom. intros Hin%Hrules. revert Hin.
          decided. }
        change (normalize "delete_repo") with "delete_repo". by rewrite Hnone.
      * apply Hlisted. decided.
Qed.

(** Claim C1, on the code.  An engine holds the policy of the document that
    allows [safe_tool] only.  [Load] is then called with a document that
    lists [delete_repo] and has a rule whose pattern does not compile.  The
    call returns an error, and the engine still names the old policy, but
    the allowed set of the old policy is gone: [safe_tool], allowed before,
    is denied, and [delete_repo], denied before, is allowed.  This holds in
    whatever order the maps are iterated. *)
Theorem failed_reload_overwrites_policy :
  let before := loaded toolLevelYAML in
  ∀ o,
    let result := Load o before (bytes brokenReloadYAML) in
    result.2 ≠ None ∧
    GetPolicyName result.1 = "tool-level-test" ∧
    allowedSet result.1 ≠ allowedSet before ∧
    ∀ o' args,
      IsAllowed o' before "safe_tool" args = allow ∧
      IsAllowed o' result.1 "safe_tool" args = deny "" "" ∧
      IsAllowed o' before "delete_repo" args = deny "" "" ∧
      IsAllowed o' result.1 "delete_repo" args = allow.
Proof.
  intros before o result.
  destruct (brokenReload_rejected o before) as (Herr & Hpolicy & Hbound & Hdelete).
  fold result in Herr, Hpolicy, Hbound, Hdelete.
  assert (normalize "safe_tool" ∉ allowedTools result.1) as Hsafe.
  { intros Hin%Hbound. revert Hin. decided. }
  assert (∀ o' args, IsAllowed o' before "safe_tool" args = allow) as Hbefore.
  { intros o' args. rewrite IsAllowed_inside.
    - evaluate.
    - decided. }
  split_and!; [done| | |].
  - unfold GetPolicyName. rewrite Hpolicy. evaluate.
  - intros Heq. apply Hsafe. unfold allowedTools. rewrite Heq.
    decided.
  - intros o' args. split_and!; [done| | |done].
    + by apply IsAllowed_outside.
    + apply IsAllowed_outside. decided.
Qed.

(** Claim C2, on the code.  On a new engine, the first [Load] is called with
    the document that lists [delete_repo] and has a rule whose pattern does
    not compile.  The call returns an error and the engine has no policy,
    yet [IsAllowed] allows [delete_repo] with any arguments, in whatever
    order the maps are iterated. *)
Theorem failed_first_Load_not_closed :
  ∀ o,
    let result := Load o NewEngine (bytes brokenReloadYAML) in
    result.2 ≠ None ∧
    GetPolicyName result.1 = "<no policy>" ∧
    ∀ o' args, Allowed (IsAllowed o' result.1 "delete_repo" args) = true.
Proof.
  intros o result.
  destruct (brokenReload_rejected o NewEngine) as (Herr & Hpolicy & _ & Hdelete).
  fold result in Herr, Hpolicy, Hdelete.
  split_and!; [done| |].
  - unfold GetPolicyName. by rewrite Hpolicy.
  - intros o' args. by rewrite Hdelete.
Qed.

(** ** The claims on concrete engines *)

Lemma loaded_multiArg : loadedBy (loaded multiArgYAML).
Proof. exists keyOrder, NewEngine, (bytes multiArgYAML). evaluate. Qed.

Lemma loaded_geminiJack : loadedBy (loaded geminiJackYAML).
Proof. exists keyOrder, NewEngine, (bytes geminiJackYAML). evaluate. Qed.

Lemma rule_keys_allowed_witness :
  let e' := loaded implicitAllowYAML in
  Load keyOrder NewEngine (bytes implicitAllowYAML) = (e', None) ∧
  ((∃ allowed, allowedSet e' = Some allowed ∧
      ∀ name, is_Some (toolRules e' !! name) → name ∈ allowed) ∧
   ∀ doc declared,
     Unmarshal (bytes implicitAllowYAML) = inr doc →
     declared ∈ ToolRules (Spec doc) →
     normalize (Tool declared) ∈ allowedTools e' ∧
     ∃ rule,
       toolRules e' !! normalize (Tool declared) = Some rule ∧
       ∀ o' args,
         IsAllowed o' e' (Tool declared) args =
           if bool_decide (size (compiledArgs rule) = 0) then allow
           else validateArgs rule args (range o' (compiledArgs rule))).
Proof.
  intros e'.
  assert (Load keyOrder NewEngine (bytes implicitAllowYAML) = (e', None)) as Hload
    by (vm_compute; reflexivity).
  split; [exact Hload|]. exact (rule_keys_allowed _ _ _ _ Hload).
Defined.

Lemma tool_outside_allowed_set_denied_witness :
  let e := loaded toolLevelYAML in
  let args := text [("path", "/etc/passwd")] in
  loadedBy e ∧ (normalize "dangerous_tool" ∉ allowedTools e) ∧
  (IsAllowed keyOrder e "dangerous_tool" args =
     {| Allowed := false; FailedArg := ""; FailedRule := "" |} ∧
   ∀ rules,
     IsAllowed keyOrder {| policy := policy e; allowedSet := allowedSet e;
                           toolRules := rules |} "dangerous_tool" args =
       {| Allowed := false; FailedArg := ""; FailedRule := "" |}).
Proof.
  intros e args.
  assert (normalize "dangerous_tool" ∉ allowedTools e) as Hout
    by decided.
  split; [exact loaded_toolLevel|]. split; [exact Hout|].
  exact (tool_outside_allowed_set_denied e keyOrder "dangerous_tool" args
           loaded_toolLevel Hout).
Defined.

Lemma tool_without_constraints_allowed_witness :
  let e := loaded toolLevelYAML in
  let args : gmap string (any unit) :=
    list_to_map [("any_arg", AString "any_value"); ("another", AInt 12345);
                 ("dangerous", AString "../../etc/passwd")] in
  loadedBy e ∧ normalize "SAFE_TOOL" ∈ allowedTools e ∧
  (toolRules e !! normalize "SAFE_TOOL" = None ∨
   (∃ rule, toolRules e !! normalize "SAFE_TOOL" = Some rule ∧ AllowArgs rule = ∅)) ∧
  IsAllowed keyOrder e "SAFE_TOOL" args =
    {| Allowed := true; FailedArg := ""; FailedRule := "" |}.
Proof.
  intros e args.
  assert (normalize "SAFE_TOOL" ∈ allowedTools e) as Hin
    by decided.
  assert (toolRules e !! normalize "SAFE_TOOL" = None ∨
          (∃ rule, toolRules e !! normalize "SAFE_TOOL" = Some rule ∧
                   AllowArgs rule = ∅)) as Hrule
    by (left; vm_compute; reflexivity).
  split; [exact loaded_toolLevel|]. split; [exact Hin|]. split; [exact Hrule|].
  exact (tool_without_constraints_allowed e keyOrder "SAFE_TOOL" args
           loaded_toolLevel Hin Hrule).
Defined.

Lemma constrained_arguments_decide_witness :
  let e := loaded multiArgYAML in
  let args := text [("database", "master"); ("query", "SELECT * FROM users")] in
  let result := IsAllowed keyOrder e "run_query" args in
  loadedBy e ∧
  toolRules e !! normalize "run_query" = Some multiArgRule ∧
  AllowArgs multiArgRule ≠ ∅ ∧
  ((Allowed result = true ↔
      ∀ A P, AllowArgs multiArgRule !! A = Some P → satisfies args A P) ∧
   (Allowed result = false →
      ∃ before A re after P,
        range keyOrder (compiledArgs multiArgRule) = before ++ (A, re) :: after ∧
        (∀ A' re', (A', re') ∈ before →
           ∃ P', AllowArgs multiArgRule !! A' = Some P' ∧ satisfies args A' P') ∧
        AllowArgs multiArgRule !! A = Some P ∧ violates args A P ∧
        FailedArg result = A ∧ FailedRule result = P) ∧
   (∀ A P, AllowArgs multiArgRule !! A = Some P → violates args A P →
      Allowed result = false ∧
      ((∀ A' P', AllowArgs multiArgRule !! A' = Some P' → violates args A' P' →
          A' = A) →
       result = {| Allowed := false; FailedArg := A; FailedRule := P |}))).
Proof.
  intros e args result.
  assert (toolRules e !! normalize "run_query" = Some multiArgRule) as Hrule
    by (vm_compute; reflexivity).
  assert (AllowArgs multiArgRule ≠ ∅) as Hnonempty
    by decided.
  split; [exact loaded_multiArg|]. split; [exact Hrule|]. split; [exact Hnonempty|].
  exact (constrained_arguments_decide e keyOrder "run_query" multiArgRule args
           loaded_multiArg Hrule Hnonempty).
Defined.

Lemma unconstrained_arguments_ignored_witness :
  let e := loaded geminiJackYAML in
  let args1 := text [("url", "https://github.com/my-repo")] in
  let args2 := text [("url", "https://github.com/my-repo");
                     ("redirect", "https://attacker.com/steal")] in
  loadedBy e ∧
  toolRules e !! normalize "fetch_url" = Some geminiJackRule ∧
  (∀ A, is_Some (AllowArgs geminiJackRule !! A) → args1 !! A = args2 !! A) ∧
  (IsAllowed keyOrder e "fetch_url" args1 = IsAllowed keyOrder e "fetch_url" args2 ∧
   ∀ o', Allowed (IsAllowed keyOrder e "fetch_url" args1) =
         Allowed (IsAllowed o' e "fetch_url" args2)).
Proof.
  intros e args1 args2.
  assert (toolRules e !! normalize "fetch_url" = Some geminiJackRule) as Hrule
    by (vm_compute; reflexivity).
  assert (∀ A, is_Some (AllowArgs geminiJackRule !! A) → args1 !! A = args2 !! A)
    as Hagree.
  { intros A. destruct (decide (A = "url")) as [->|Hne].
    - intros _. vm_compute. reflexivity.
    - simpl. rewrite lookup_insert_ne, lookup_empty by done. by intros []. }
  split; [exact loaded_geminiJack|]. split; [exact Hrule|]. split; [exact Hagree|].
  exact (unconstrained_arguments_ignored e keyOrder "fetch_url" geminiJackRule
           args1 args2 loaded_geminiJack Hrule Hagree).
Defined.

(** [Fetch_URL] and [ fetch_url ], with a space on either side, have the same
    normal form and so get the same answer from every engine. *)
Example Fetch_URL_resolves_alike (e : Engine TestPattern) o
    (args : gmap string (any unit)) :
  IsAllowed o e "Fetch_URL" args = IsAllowed o e " fetch_url " args.
Proof. by apply IsAllowed_normalize_eq. Qed.

(** Where two constrained arguments are violated, one of them is not the
    reported one, whatever the order of iteration. *)
Lemma one_absent_argument_unreported o :
  ¬ ∀ A P,
      AllowArgs multiArgRule !! A = Some P →
      (∅ : gmap string (any unit)) !! A = None →
      IsAllowed o (loaded multiArgYAML) "run_query" ∅ =
        {| Allowed := false; FailedArg := A; FailedRule := P |}.
Proof.
  intros Hclaim.
  pose proof (Hclaim "database" "^(prod|staging)$") as Hdatabase.
  pose proof (Hclaim "query" "^SELECT\s+.*") as Hquery.
  rewrite Hdatabase in Hquery by (vm_compute; reflexivity).
  by specialize (Hquery ltac:(vm_compute; reflexivity) ltac:(vm_compute; reflexivity)).
Qed.

(** Claim C4 as stated fails where two constrained arguments are violated.
    The rule of [run_query] constrains [database] and [query]; with no
    arguments both are absent.  The claim asks for [FailedArg = A] for each
    absent [A], but a call reports one argument: when the entries are
    visited in key order, [database] is absent and the call reports [query];
    in the opposite order, [query] is absent and the call reports
    [database]. *)
Lemma absent_argument_not_always_reported :
  let e := loaded multiArgYAML in
  let args : gmap string (any unit) := ∅ in
  toolRules e !! normalize "run_query" = Some multiArgRule ∧
  (AllowArgs multiArgRule !! "database" = Some "^(prod|staging)$" ∧
   args !! "database" = None ∧
   IsAllowed keyOrder e "run_query" args = deny "query" "^SELECT\s+.*" ∧
   IsAllowed keyOrder e "run_query" args ≠ deny "database" "^(prod|staging)$") ∧
  (AllowArgs multiArgRule !! "query" = Some "^SELECT\s+.*" ∧
   args !! "query" = None ∧
   IsAllowed reverseKeyOrder e "run_query" args = deny "database" "^(prod|staging)$" ∧
   IsAllowed reverseKeyOrder e "run_query" args ≠ deny "query" "^SELECT\s+.*").
Proof.
  intros e args. split_and!; try (vm_compute; reflexivity); vm_compute; discriminate.
Qed.

(** Claim C9 as stated fails on the number one million, which [%v] prints
    in exponent form. *)
Lemma million_not_in_decimal_form :
  argToString (AFloat64 1000000 : any unit) = "1e+06" ∧
  plainDecimal (argToString (AFloat64 1000000 : any unit)) = false.
Proof. split; vm_compute; reflexivity. Qed.

(** ** The further properties on concrete engines *)

Lemma Load_replaces_engine_witness :
  let e' := loaded multiArgYAML in
  Load keyOrder NewEngine (bytes multiArgYAML) = (e', None) ∧
  Load reverseKeyOrder (loaded toolLevelYAML) (bytes multiArgYAML) = (e', None).
Proof.
  intros e'.
  assert (Load keyOrder NewEngine (bytes multiArgYAML) = (e', None)) as Hload
    by (vm_compute; reflexivity).
  split; [exact Hload|].
  exact (Load_replaces_engine keyOrder reverseKeyOrder NewEngine
           (loaded toolLevelYAML) (bytes multiArgYAML) e' Hload).
Defined.

Lemma rejected_loads_change_nothing_witness :
  let calls := [(keyOrder, bytes wrongKindYAML);
                (reverseKeyOrder, bytes "not a policy");
                (keyOrder, bytes noVersionYAML)] in
  let e := loaded toolLevelYAML in
  Forall (λ call, rejectedEarly call.2) calls ∧
  (loadAll calls e = e ∧
   ∀ o tool (args : gmap string (any unit)),
     IsAllowed o (loadAll calls NewEngine) tool args =
       {| Allowed := false; FailedArg := ""; FailedRule := "" |}).
Proof.
  intros calls e.
  assert (Forall (λ call, rejectedEarly call.2) calls) as Hcalls.
  { apply Forall_cons. split; [vm_compute; intros [_ ?]; discriminate|].
    apply Forall_cons. split; [vm_compute; exact I|].
    apply Forall_cons. split; [vm_compute; intros [? _]; congruence|].
    by apply Forall_nil. }
  split; [exact Hcalls|].
  exact (rejected_loads_change_nothing calls e Hcalls).
Defined.

Lemma arguments_seen_as_text_witness :
  let e := loaded geminiJackYAML in
  let args1 : gmap string (any unit) :=
    list_to_map [("url", ABool true); ("retries", AInt 100)] in
  let args2 : gmap string (any unit) :=
    list_to_map [("url", AString "true"); ("retries", AString "100")] in
  argToString <$> args1 = argToString <$> args2 ∧
  IsAllowed keyOrder e "fetch_url" args1 = IsAllowed keyOrder e "fetch_url" args2.
Proof.
  intros e args1 args2.
  assert (argToString <$> args1 = argToString <$> args2) as Htext
    by (vm_compute; reflexivity).
  split; [exact Htext|].
  exact (arguments_seen_as_text e keyOrder "fetch_url" args1 args2 Htext).
Defined.

Section scenarios.

(** The scenarios below decode their documents with [scenarioYaml]. *)
#[local] Existing Instance scenarioYaml.

Lemma last_rule_wins_witness :
  let data := bytes duplicateRuleYAML in
  let e' := (Load keyOrder NewEngine data).1 in
  let pre := [testRule "FETCH_URL" [("url", "^https://github\.com/.*")]] in
  let r := testRule " fetch_url " [("url", "^https://.*")] in
  let post : list (ToolRule TestPattern) := [] in
  Load keyOrder NewEngine data = (e', None) ∧
  Unmarshal data = inr duplicateRulePolicy ∧
  ToolRules (Spec duplicateRulePolicy) = pre ++ r :: post ∧
  (∀ r', r' ∈ post → normalize (Tool r') ≠ normalize (Tool r)) ∧
  ((∃ rule,
      toolRules e' !! normalize (Tool r) = Some rule ∧
      Tool rule = Tool r ∧ AllowArgs rule = AllowArgs r ∧ compiledFrom rule) ∧
   ∀ o' tool (args : gmap string (any unit)),
     normalize tool = normalize (Tool r) →
     Allowed (IsAllowed o' e' tool args) = true ↔
     ∀ A P, AllowArgs r !! A = Some P → satisfies args A P).
Proof.
  intros data e' pre r post.
  assert (Load keyOrder NewEngine data = (e', None)) as Hload
    by (vm_compute; reflexivity).
  assert (Unmarshal data = inr duplicateRulePolicy) as Hdoc
    by (vm_compute; reflexivity).
  assert (ToolRules (Spec duplicateRulePolicy) = pre ++ r :: post) as Hrules
    by reflexivity.
  assert (∀ r', r' ∈ post → normalize (Tool r') ≠ normalize (Tool r)) as Hpost
    by (intros r' Hin; destruct (not_elem_of_nil r' Hin)).
  split; [exact Hload|]. split; [exact Hdoc|]. split; [exact Hrules|].
  split; [exact Hpost|].
  exact (last_rule_wins keyOrder NewEngine data e' duplicateRulePolicy pre r post
           Hload Hdoc Hrules Hpost).
Defined.

Lemma Load_stops_at_first_bad_rule_witness :
  let data := bytes brokenMiddleYAML in
  let e := loaded toolLevelYAML in
  let pre := [testRule "fetch_url" [("url", "^https://.*")]] in
  let bad := testRule "bad_tool" [("pattern", "[invalid(regex")] in
  let post := [testRule "run_query" [("database", "^(prod|staging)$")]] in
  let result := Load keyOrder e data in
  Unmarshal data = inr brokenMiddlePolicy ∧
  validDocument brokenMiddlePolicy ∧
  ToolRules (Spec brokenMiddlePolicy) = pre ++ bad :: post ∧
  (∀ r A P, r ∈ pre → AllowArgs r !! A = Some P → ∃ re, Compile P = inr re) ∧
  (∃ A P msg, AllowArgs bad !! A = Some P ∧ Compile P = inl msg) ∧
  ((∃ A P msg,
      AllowArgs bad !! A = Some P ∧ Compile P = inl msg ∧
      result.2 = Some (ErrInvalidRegex (Tool bad) A msg)) ∧
   allowedSet result.1 = Some (ruledTools pre ∪ listedTools brokenMiddlePolicy) ∧
   dom (toolRules result.1) = ruledTools pre ∧
   (∀ before r after,
      pre = before ++ r :: after →
      (∀ r', r' ∈ after → normalize (Tool r') ≠ normalize (Tool r)) →
      ∃ rule,
        toolRules result.1 !! normalize (Tool r) = Some rule ∧
        Tool rule = Tool r ∧ AllowArgs rule = AllowArgs r ∧ compiledFrom rule) ∧
   policy result.1 = policy e).
Proof.
  intros data e pre bad post result.
  assert (Unmarshal data = inr brokenMiddlePolicy) as Hdoc
    by (vm_compute; reflexivity).
  assert (validDocument brokenMiddlePolicy) as Hvalid
    by (split; [discriminate|reflexivity]).
  assert (ToolRules (Spec brokenMiddlePolicy) = pre ++ bad :: post) as Hrules
    by reflexivity.
  assert (∀ r A P, r ∈ pre → AllowArgs r !! A = Some P →
            ∃ re, Compile P = inr re) as Hpre.
  { intros r0 A P ->%list_elem_of_singleton. simpl.
    destruct (decide (A = "url")) as [->|Hne].
    - rewrite lookup_insert_eq. intros [= <-]. exists HttpsURL. vm_compute. reflexivity.
    - rewrite lookup_insert_ne, lookup_empty by done. discriminate. }
  assert (∃ A P msg, AllowArgs bad !! A = Some P ∧ Compile P = inl msg) as Hbad.
  { exists "pattern", "[invalid(regex",
      "error parsing regexp: missing closing ]: `[invalid(regex`".
    split; vm_compute; reflexivity. }
  split; [exact Hdoc|]. split; [exact Hvalid|]. split; [exact Hrules|].
  split; [exact Hpre|]. split; [exact Hbad|].
  exact (Load_stops_at_first_bad_rule keyOrder e data brokenMiddlePolicy pre bad post
           Hdoc Hvalid Hrules Hpre Hbad).
Defined.

Lemma Load_ignores_denied_tools_witness :
  let data1 := bytes toolLevelYAML in
  let data2 := bytes deniedToolYAML in
  let result1 := Load keyOrder NewEngine data1 in
  let result2 := Load keyOrder NewEngine data2 in
  Unmarshal data1 = inr toolLevelPolicy ∧
  Unmarshal data2 = inr deniedToolPolicy ∧
  validDocument toolLevelPolicy ∧
  validDocument deniedToolPolicy ∧
  AllowedTools (Spec toolLevelPolicy) = AllowedTools (Spec deniedToolPolicy) ∧
  ToolRules (Spec toolLevelPolicy) = ToolRules (Spec deniedToolPolicy) ∧
  (allowedSet result1.1 = allowedSet result2.1 ∧
   toolRules result1.1 = toolRules result2.1 ∧
   result1.2 = result2.2 ∧
   ∀ o' tool (args : gmap string (any unit)),
     IsAllowed o' result1.1 tool args = IsAllowed o' result2.1 tool args).
Proof.
  intros data1 data2 result1 result2.
  assert (Unmarshal data1 = inr toolLevelPolicy) as Hdoc1
    by (vm_compute; reflexivity).
  assert (Unmarshal data2 = inr deniedToolPolicy) as Hdoc2
    by (vm_compute; reflexivity).
  assert (validDocument toolLevelPolicy) as Hvalid1
    by (split; [discriminate|reflexivity]).
  assert (validDocument deniedToolPolicy) as Hvalid2
    by (split; [discriminate|reflexivity]).
  split; [exact Hdoc1|]. split; [exact Hdoc2|]. split; [exact Hvalid1|].
  split; [exact Hvalid2|]. split; [reflexivity|]. split; [reflexivity|].
  exact (Load_ignores_denied_tools keyOrder NewEngine NewEngine data1 data2
           toolLevelPolicy deniedToolPolicy Hdoc1 Hdoc2 Hvalid1 Hvalid2
           eq_refl eq_refl).
Defined.


(** With the deny-list naming it, [safe_tool] is allowed all the same. *)
Example denied_tool_is_allowed :
  IsAllowed keyOrder (Load keyOrder NewEngine (bytes deniedToolYAML)).1 "safe_tool"
    (∅ : gmap string (any unit)) = allow.
Proof. vm_compute. reflexivity. Qed.

(** Which of two bad patterns of a rule the error names depends on the order
    of iteration. *)
Example two_bad_patterns_two_errors :
  let data := bytes twoBadPatternsYAML in
  let msg := "error parsing regexp: missing closing ]: `[invalid(regex`" in
  (Load keyOrder NewEngine data).2 = Some (ErrInvalidRegex "run_query" "query" msg) ∧
  (Load reverseKeyOrder NewEngine data).2 = Some (ErrInvalidRegex "run_query" "database" msg).
Proof. vm_compute. split; reflexivity. Qed.

End scenarios.

(** [LoadFromFile] on the two files and on a path that is not there. *)
Example LoadFromFile_scenarios :
  (LoadFromFile keyOrder NewEngine "/etc/aip/agent.yaml").2 = None ∧
  fileErrorText <$> (LoadFromFile keyOrder NewEngine "/etc/aip/broken.yaml").2 =
    Some ("unexpected kind " +:+ quote "AgentManifest" +:+ ", expected AgentPolicy") ∧
  fileErrorText <$> (LoadFromFile keyOrder NewEngine "/etc/aip/missing.yaml").2 =
    Some ("failed to read policy file " +:+ quote "/etc/aip/missing.yaml" +:+
          ": open /etc/aip/missing.yaml: no such file or directory").
Proof. vm_compute. repeat split. Qed.
